(** * Loki image processor: a shallow embedding of [pkg/processor]

    The model follows the Go package [processor]: the option records and
    their validation, the bounded reader, the three codecs (JPEG, PNG,
    WebP), format detection, the batch engine [ProcessBatch] with its
    per-item [processItem], directory scanning and the derived figures of
    [Result].  Go's [int]/[int64] values are [Z]; byte slices are
    [list byte]; strings are [string]; a Go map keyed by path (the file
    system) is a [gmap]. *)

From Stdlib Require Import ZArith Lia Floats String Ascii QArith.
From stdpp Require Import base list gmap strings sets.

Open Scope Z_scope.

Abbreviation byte := Byte.byte.

(* ------------------------------------------------------------------ *)
(** ** Errors *)

(** Go's [error] values that the package creates or forwards.
    [ErrWrap msg e] is [fmt.Errorf("msg: %w", e)]. *)
Inductive GoErr :=
  | ErrCanceled                         (* context.Canceled *)
  | ErrDeadlineExceeded                 (* context.DeadlineExceeded *)
  | ErrPreserveMetadataNotSupported
  | ErrNegativeMaxFileSize              (* "max file size must be non-negative" *)
  | ErrFileTooLarge
  | ErrUnsupportedImageFormat (ext : string)
  | ErrUnsupportedFormat (f : Z)         (* processItem's default branch *)
  | ErrTargetMismatch (codec : string) (got : Z)
  | ErrDecode                           (* error of image.Decode *)
  | ErrIO (what : string)               (* an error of the os / io layer *)
  | ErrWrap (msg : string) (inner : GoErr).

(** [errors.Is] on the wrapping chain built with [%w]. *)
Fixpoint errors_Is (e target : GoErr) : Prop :=
  e = target \/ match e with ErrWrap _ inner => errors_Is inner target | _ => False end.

(* ------------------------------------------------------------------ *)
(** ** Formats and levels (types.go) *)

(** [ImageFormat] is a Go [int]; the constants are [iota]. *)
Definition FormatJPEG : Z := 0.
Definition FormatPNG : Z := 1.
Definition FormatWEBP : Z := 2.

(** [CompressionLevel] is a Go [int]. *)
Definition CompressionLow : Z := 0.
Definition CompressionMedium : Z := 1.
Definition CompressionHigh : Z := 2.

Definition ToJPEGQuality (c : Z) : Z :=
  if c =? CompressionLow then 60
  else if c =? CompressionMedium then 75
  else if c =? CompressionHigh then 90
  else 75.

(** [png.CompressionLevel] of the Go standard library. *)
Inductive PNGCompressionLevel :=
  | DefaultCompression | NoCompression | BestSpeed | BestCompression.

Definition ToPNGCompressionLevel (c : Z) : PNGCompressionLevel :=
  if c =? CompressionLow then BestSpeed
  else if c =? CompressionMedium then DefaultCompression
  else if c =? CompressionHigh then BestCompression
  else DefaultCompression.

(** Modelled from the spec: [CompressionLevel.ToWebPQuality], called by
    webp.go but absent from the sources; the spec gives WebP the JPEG
    convention 60/75/90 (and types_test.go expects 75 for an unknown
    level).  Its [float32] result is an integer in [1,100], kept as [Z]. *)
Definition ToWebPQuality (c : Z) : Z :=
  if c =? CompressionLow then 60
  else if c =? CompressionMedium then 75
  else if c =? CompressionHigh then 90
  else 75.

(* ------------------------------------------------------------------ *)
(** ** Options and results (processor.go) *)

Record CompressOptions := {
  Quality : Z;
  Level : Z;
  PreserveMetadata : bool;
  MaxFileSize : Z
}.

Definition Validate (o : CompressOptions) : option GoErr :=
  if PreserveMetadata o then Some ErrPreserveMetadataNotSupported
  else if MaxFileSize o <? 0 then Some ErrNegativeMaxFileSize
  else None.

Definition DefaultCompressOptions : CompressOptions :=
  {| Quality := 0; Level := CompressionMedium; PreserveMetadata := false;
     MaxFileSize := 0 |}.

(** The same options with another [Quality]. *)
Definition with_quality (q : Z) (o : CompressOptions) : CompressOptions :=
  {| Quality := q; Level := Level o; PreserveMetadata := PreserveMetadata o;
     MaxFileSize := MaxFileSize o |}.

(** [ConvertOptions] embeds [CompressOptions]. *)
Record ConvertOptions := {
  Format : Z;
  CompressOpts : CompressOptions
}.

Record Result := {
  OriginalSize : Z;
  CompressedSize : Z;
  ResultFormat : Z
}.

Record BatchItem := {
  InputPath : string;
  OutputPath : string;
  Options : CompressOptions
}.

(** [Result *Result] and [Error error]: [None] is Go's [nil]. *)
Record BatchResult := {
  Item : BatchItem;
  BResult : option Result;
  BError : option GoErr
}.

Definition IsSuccess (br : BatchResult) : bool :=
  match BError br, BResult br with None, Some _ => true | _, _ => false end.

(* ------------------------------------------------------------------ *)
(** ** Context *)

(** The observable state of a [context.Context]. *)
Inductive CtxState := CtxActive | CtxCanceled | CtxDeadline.

(** [select { case <-ctx.Done(): return ctx.Err() default: }] *)
Definition checkContext (c : CtxState) : option GoErr :=
  match c with
  | CtxActive => None
  | CtxCanceled => Some ErrCanceled
  | CtxDeadline => Some ErrDeadlineExceeded
  end.

(* ------------------------------------------------------------------ *)
(** ** Readers, writers and the codec monad (reader.go) *)

(** An [io.Reader]: the bytes it yields, then [io.EOF] ([None]) or an
    error. *)
Record Reader := { rd_data : list byte; rd_err : option GoErr }.

(** An [io.Writer] accepting at most [wr_cap] bytes in total ([None]: no
    limit); a write past the capacity is short and fails. *)
Record Writer := { wr_cap : option nat }.

(** [io.LimitReader(r, n)]: stops with EOF after [n] bytes, so the
    underlying error is reached only when [r] holds fewer than [n]. *)
Definition LimitReader (r : Reader) (n : Z) : Reader :=
  {| rd_data := take (Z.to_nat n) (rd_data r);
     rd_err := if (length (rd_data r) <? Z.to_nat n)%nat then rd_err r else None |}.

(** A codec run threads the number of bytes pulled from the source and the
    bytes pushed to the destination; it ends in a value or an error. *)
Definition IOState : Type := (nat * list byte)%type.
Definition CM (A : Type) : Type := IOState -> (A + GoErr) * IOState.

Definition cm_ret {A} (a : A) : CM A := fun s => (inl a, s).
Definition cm_throw {A} (e : GoErr) : CM A := fun s => (inr e, s).
Definition cm_bind {A B} (m : CM A) (k : A -> CM B) : CM B :=
  fun s => match m s with
           | (inl a, s') => k a s'
           | (inr e, s') => (inr e, s')
           end.

Notation "x <- m ;; k" := (cm_bind m (fun x => k))
  (at level 100, m at next level, right associativity).

(** [if err != nil { return nil, err }] *)
Definition cm_check (oe : option GoErr) : CM unit :=
  match oe with Some e => cm_throw e | None => cm_ret tt end.

(** [io.ReadAll(r)]: every byte of [r] is pulled into the buffer. *)
Definition io_ReadAll (r : Reader) : CM (list byte * option GoErr) :=
  fun '(n, w) => (inl (rd_data r, rd_err r), (n + length (rd_data r), w)%nat).

(** [w.Write(p)] (also the writes of [io.Copy] and of an encoder). *)
Definition io_Write (wr : Writer) (p : list byte) : CM (option GoErr) :=
  fun '(n, w) =>
    let acc := match wr_cap wr with
               | None => p
               | Some cap => take (cap - length w) p
               end in
    (inl (if (length acc <? length p)%nat then Some (ErrIO "short write") else None),
     (n, w ++ acc)).

Definition MaxInt64 : Z := 9223372036854775807.

(** [readAllWithLimit] (last version of reader.go). *)
Definition readAllWithLimit (r : Reader) (maxSize : Z) : CM (list byte * option GoErr) :=
  if maxSize <=? 0 then io_ReadAll r
  else if maxSize =? MaxInt64 then io_ReadAll r
  else
    de <- io_ReadAll (LimitReader r (maxSize + 1)) ;;
    let '(data, err) := de in
    match err with
    | Some e => cm_ret ([], Some e)
    | None =>
        if Z.of_nat (length data) >? maxSize then cm_ret ([], Some ErrFileTooLarge)
        else cm_ret (data, None)
    end.

(** What a codec call returns, the pair (result pointer, error), with the bytes it
    pulled from the source and pushed to the destination. *)
Record CodecOut := {
  co_result : option Result;
  co_err : option GoErr;
  co_read : nat;
  co_written : list byte
}.

Definition run_codec (m : CM Result) : CodecOut :=
  match m (0%nat, []) with
  | (inl r, (n, w)) => {| co_result := Some r; co_err := None; co_read := n; co_written := w |}
  | (inr e, (n, w)) => {| co_result := None; co_err := Some e; co_read := n; co_written := w |}
  end.

(** The [Processor] interface. *)
Record Processor := {
  Compress : CtxState -> Reader -> Writer -> CompressOptions -> CodecOut;
  Convert : CtxState -> Reader -> Writer -> ConvertOptions -> CodecOut
}.

(* ------------------------------------------------------------------ *)
(** ** Quality resolution *)

Definition clamp_quality (q : Z) : Z :=
  if q <? 1 then 1 else if q >? 100 then 100 else q.

(** jpeg.go: [quality <= 0] falls back to the level, then clamps. *)
Definition jpeg_quality (o : CompressOptions) : Z :=
  clamp_quality (if Quality o <=? 0 then ToJPEGQuality (Level o) else Quality o).

(** webp.go [Compress]: only [Quality == 0] falls back to the level; any
    other value is clamped.  [float32(q)] is exact on [1,100] and keeps
    the order against 1 and 100, so the clamp is computed on [Z]. *)
Definition webp_compress_quality (o : CompressOptions) : Z :=
  if Quality o =? 0 then ToWebPQuality (Level o) else clamp_quality (Quality o).

(** webp.go [Convert]: [Quality <= 0] falls back to the level. *)
Definition webp_convert_quality (o : CompressOptions) : Z :=
  clamp_quality (if Quality o <=? 0 then ToWebPQuality (Level o) else Quality o).

(* ------------------------------------------------------------------ *)
(** ** The codecs (jpeg.go, png.go, webp.go) *)

Definition wrap (msg : string) (oe : option GoErr) : option GoErr :=
  option_map (ErrWrap msg) oe.

Section Codecs.

(** The image library: [image.Decode] with the registered decoders, and
    the encoders, each giving the bytes it emits and then, possibly, its
    error. *)
Variable Image : Type.
Variable image_Decode : list byte -> option Image.
Variable jpeg_Encode : Image -> Z -> list byte * option GoErr.
Variable png_Encode : Image -> PNGCompressionLevel -> list byte * option GoErr.
Variable webp_Encode : Image -> Z -> list byte * option GoErr.

(** [JPEGProcessor.Compress] and [Convert] (jpeg.go): no option validation,
    [io.ReadAll], encode into a [bytes.Buffer], then [io.Copy]. *)
Definition jpeg_encode_body (ctx : CtxState) (r : Reader) (w : Writer)
    (opts : CompressOptions) : CM Result :=
  _ <- cm_check (checkContext ctx) ;;
  de <- io_ReadAll r ;;
  let '(inputData, err) := de in
  _ <- cm_check (wrap "failed to read input" err) ;;
  let originalSize := Z.of_nat (length inputData) in
  match image_Decode inputData with
  | None => cm_throw (ErrWrap "failed to decode image" ErrDecode)
  | Some img =>
      let quality := jpeg_quality opts in
      let '(buf, eerr) := jpeg_Encode img quality in
      _ <- cm_check (wrap "failed to encode JPEG" eerr) ;;
      let compressedSize := Z.of_nat (length buf) in
      werr <- io_Write w buf ;;
      _ <- cm_check (wrap "failed to write output" werr) ;;
      cm_ret {| OriginalSize := originalSize; CompressedSize := compressedSize;
                ResultFormat := FormatJPEG |}
  end.

Definition JPEG_Compress (ctx : CtxState) (r : Reader) (w : Writer)
    (opts : CompressOptions) : CodecOut :=
  run_codec (jpeg_encode_body ctx r w opts).

Definition JPEG_Convert (ctx : CtxState) (r : Reader) (w : Writer)
    (opts : ConvertOptions) : CodecOut :=
  run_codec (jpeg_encode_body ctx r w (CompressOpts opts)).

(** The body shared by the PNG and WebP codecs (png.go, last version, and
    webp.go): validate, poll the context, bounded read, poll, decode,
    poll, encode straight into a [countingWriter]. *)
Definition stream_body (encode : Image -> list byte * option GoErr)
    (encMsg : string) (fmt : Z) (ctx : CtxState) (r : Reader) (w : Writer)
    (opts : CompressOptions) : CM Result :=
  _ <- cm_check (Validate opts) ;;
  _ <- cm_check (checkContext ctx) ;;
  de <- readAllWithLimit r (MaxFileSize opts) ;;
  let '(inputData, err) := de in
  _ <- cm_check (wrap "failed to read input" err) ;;
  let originalSize := Z.of_nat (length inputData) in
  _ <- cm_check (checkContext ctx) ;;
  match image_Decode inputData with
  | None => cm_throw (ErrWrap "failed to decode image" ErrDecode)
  | Some img =>
      _ <- cm_check (checkContext ctx) ;;
      let '(enc, eerr) := encode img in
      werr <- io_Write w enc ;;
      _ <- cm_check (wrap encMsg (match werr with Some e => Some e | None => eerr end)) ;;
      cm_ret {| OriginalSize := originalSize; CompressedSize := Z.of_nat (length enc);
                ResultFormat := fmt |}
  end.

Definition PNG_Compress (ctx : CtxState) (r : Reader) (w : Writer)
    (opts : CompressOptions) : CodecOut :=
  run_codec (stream_body (fun img => png_Encode img (ToPNGCompressionLevel (Level opts)))
               "failed to encode PNG" FormatPNG ctx r w opts).

Definition PNG_Convert (ctx : CtxState) (r : Reader) (w : Writer)
    (opts : ConvertOptions) : CodecOut :=
  run_codec (
    if negb (Format opts =? FormatPNG)
    then cm_throw (ErrTargetMismatch "PNGProcessor" (Format opts))
    else stream_body (fun img => png_Encode img (ToPNGCompressionLevel (Level (CompressOpts opts))))
           "failed to encode PNG" FormatPNG ctx r w (CompressOpts opts)).

Definition WEBP_Compress (ctx : CtxState) (r : Reader) (w : Writer)
    (opts : CompressOptions) : CodecOut :=
  run_codec (stream_body (fun img => webp_Encode img (webp_compress_quality opts))
               "failed to encode WebP" FormatWEBP ctx r w opts).

Definition WEBP_Convert (ctx : CtxState) (r : Reader) (w : Writer)
    (opts : ConvertOptions) : CodecOut :=
  run_codec (
    if negb (Format opts =? FormatWEBP)
    then cm_throw (ErrTargetMismatch "WEBPProcessor" (Format opts))
    else stream_body (fun img => webp_Encode img (webp_convert_quality (CompressOpts opts)))
           "failed to encode WebP" FormatWEBP ctx r w (CompressOpts opts)).

Definition JPEGProcessor : Processor :=
  {| Compress := JPEG_Compress; Convert := JPEG_Convert |}.
Definition PNGProcessor : Processor :=
  {| Compress := PNG_Compress; Convert := PNG_Convert |}.
Definition WEBPProcessor : Processor :=
  {| Compress := WEBP_Compress; Convert := WEBP_Convert |}.

End Codecs.

(* ------------------------------------------------------------------ *)
(** ** Format detection (detectFormatFromPath in jpeg.go) *)

Local Open Scope string_scope.

Fixpoint has_separator (s : string) : bool :=
  match s with
  | EmptyString => false
  | String c r => Ascii.eqb c "/"%char || has_separator r
  end.

(** [filepath.Ext]: the suffix from the last ['.'] of the last path
    element, or [""]. *)
Fixpoint filepath_Ext (s : string) : string :=
  match s with
  | EmptyString => ""
  | String c r =>
      let e := filepath_Ext r in
      if negb (String.eqb e "") then e
      else if Ascii.eqb c "."%char && negb (has_separator r) then String c r
      else ""
  end.

(** Whether a string holds neither a ['.'] nor a separator: a last path
    element without an extension. *)
Fixpoint plain_elem (s : string) : bool :=
  match s with
  | EmptyString => true
  | String c r => negb (Ascii.eqb c "."%char) && negb (Ascii.eqb c "/"%char) && plain_elem r
  end.

(** [strings.ToLower] works on runes: the string is read as UTF-8, each
    rune goes through [unicode.ToLower], and the result is encoded back;
    an invalid byte reads as [utf8.RuneError] and comes out as its three
    byte encoding.  (The ASCII fast path and [strings.Map]'s copying of
    unchanged runes give the same bytes.) *)

Local Close Scope string_scope.

Definition RuneError : Z := 0xFFFD.

Definition byte_val (c : Ascii.ascii) : Z := Z.of_N (Ascii.N_of_ascii c).

(** [byte(z)]: the low eight bits. *)
Definition byte_chr (z : Z) : Ascii.ascii := Ascii.ascii_of_N (Z.to_N (z mod 256)).

Definition in_range (lo hi b : Z) : bool := (lo <=? b) && (b <=? hi).

(** The [first] and [acceptRanges] tables of unicode/utf8: for a leading
    byte, the length of its sequence and the range of its second byte. *)
Definition utf8_first (b : Z) : option (nat * Z * Z) :=
  if in_range 0xC2 0xDF b then Some (2%nat, 0x80, 0xBF)
  else if b =? 0xE0 then Some (3%nat, 0xA0, 0xBF)
  else if in_range 0xE1 0xEC b then Some (3%nat, 0x80, 0xBF)
  else if b =? 0xED then Some (3%nat, 0x80, 0x9F)
  else if in_range 0xEE 0xEF b then Some (3%nat, 0x80, 0xBF)
  else if b =? 0xF0 then Some (4%nat, 0x90, 0xBF)
  else if in_range 0xF1 0xF3 b then Some (4%nat, 0x80, 0xBF)
  else if b =? 0xF4 then Some (4%nat, 0x80, 0x8F)
  else None.

(** The runes of a string as [for _, r := range s] reads them
    ([utf8.DecodeRuneInString] at each step): an invalid or truncated
    sequence gives [RuneError] and moves one byte on. *)
Fixpoint utf8_decode (s : string) : list Z :=
  match s with
  | EmptyString => []
  | String c0 s1 =>
      let b0 := byte_val c0 in
      if b0 <? 0x80 then b0 :: utf8_decode s1 else
      match utf8_first b0 with
      | None => RuneError :: utf8_decode s1
      | Some (n, lo, hi) =>
          match s1 with
          | EmptyString => RuneError :: utf8_decode s1
          | String c1 s2 =>
              let b1 := byte_val c1 in
              if negb (in_range lo hi b1) then RuneError :: utf8_decode s1
              else if (n =? 2)%nat then
                Z.lor (Z.shiftl (Z.land b0 0x1F) 6) (Z.land b1 0x3F) :: utf8_decode s2
              else
                match s2 with
                | EmptyString => RuneError :: utf8_decode s1
                | String c2 s3 =>
                    let b2 := byte_val c2 in
                    if negb (in_range 0x80 0xBF b2) then RuneError :: utf8_decode s1
                    else if (n =? 3)%nat then
                      Z.lor (Z.lor (Z.shiftl (Z.land b0 0x0F) 12) (Z.shiftl (Z.land b1 0x3F) 6))
                            (Z.land b2 0x3F) :: utf8_decode s3
                    else
                      match s3 with
                      | EmptyString => RuneError :: utf8_decode s1
                      | String c3 s4 =>
                          let b3 := byte_val c3 in
                          if negb (in_range 0x80 0xBF b3) then RuneError :: utf8_decode s1
                          else
                            Z.lor (Z.lor (Z.shiftl (Z.land b0 0x07) 18)
                                         (Z.shiftl (Z.land b1 0x3F) 12))
                                  (Z.lor (Z.shiftl (Z.land b2 0x3F) 6) (Z.land b3 0x3F))
                            :: utf8_decode s4
                      end
                end
          end
      end
  end.

(** [utf8.AppendRune]: a negative rune, a surrogate or a value above
    [MaxRune] is written as [RuneError]. *)
Definition utf8_encode (r : Z) : string :=
  if (0 <=? r) && (r <? 0x80) then String (byte_chr r) EmptyString
  else if (0 <=? r) && (r <? 0x800) then
    String (byte_chr (Z.lor 0xC0 (Z.shiftr r 6)))
      (String (byte_chr (Z.lor 0x80 (Z.land r 0x3F))) EmptyString)
  else
    let r := if (r <? 0) || in_range 0xD800 0xDFFF r || (0x10FFFF <? r) then RuneError else r in
    if r <? 0x10000 then
      String (byte_chr (Z.lor 0xE0 (Z.shiftr r 12)))
        (String (byte_chr (Z.lor 0x80 (Z.land (Z.shiftr r 6) 0x3F)))
           (String (byte_chr (Z.lor 0x80 (Z.land r 0x3F))) EmptyString))
    else
      String (byte_chr (Z.lor 0xF0 (Z.shiftr r 18)))
        (String (byte_chr (Z.lor 0x80 (Z.land (Z.shiftr r 12) 0x3F)))
           (String (byte_chr (Z.lor 0x80 (Z.land (Z.shiftr r 6) 0x3F)))
              (String (byte_chr (Z.lor 0x80 (Z.land r 0x3F))) EmptyString))).

Fixpoint utf8_encode_all (rs : list Z) : string :=
  match rs with
  | [] => EmptyString
  | r :: rs' => String.append (utf8_encode r) (utf8_encode_all rs')
  end.

(** The lower-case column of unicode's [CaseRanges] table, as
    [(lo, hi, stride, delta)]: the runes [lo], [lo + stride], ..., [hi]
    map to [rune + delta], the others of [[lo, hi]] to themselves (an
    [UpperLower] range of Go's table is a stride-2 range with delta 1).
    Generated from the simple lower-case mappings of UnicodeData.txt
    (Unicode 14.0; 15.0, the version of Go's tables, adds no case
    pair). *)
Definition lower_ranges : list (Z * Z * Z * Z) := [
  (0x00C0, 0x00D6, 1, 32); (0x00D8, 0x00DE, 1, 32); (0x0100, 0x012E, 2, 1);
  (0x0130, 0x0130, 1, -199); (0x0132, 0x0136, 2, 1); (0x0139, 0x0147, 2, 1);
  (0x014A, 0x0176, 2, 1); (0x0178, 0x0178, 1, -121); (0x0179, 0x017D, 2, 1);
  (0x0181, 0x0181, 1, 210); (0x0182, 0x0184, 2, 1); (0x0186, 0x0186, 1, 206);
  (0x0187, 0x0187, 1, 1); (0x0189, 0x018A, 1, 205); (0x018B, 0x018B, 1, 1);
  (0x018E, 0x018E, 1, 79); (0x018F, 0x018F, 1, 202); (0x0190, 0x0190, 1, 203);
  (0x0191, 0x0191, 1, 1); (0x0193, 0x0193, 1, 205); (0x0194, 0x0194, 1, 207);
  (0x0196, 0x0196, 1, 211); (0x0197, 0x0197, 1, 209); (0x0198, 0x0198, 1, 1);
  (0x019C, 0x019C, 1, 211); (0x019D, 0x019D, 1, 213); (0x019F, 0x019F, 1, 214);
  (0x01A0, 0x01A4, 2, 1); (0x01A6, 0x01A6, 1, 218); (0x01A7, 0x01A7, 1, 1);
  (0x01A9, 0x01A9, 1, 218); (0x01AC, 0x01AC, 1, 1); (0x01AE, 0x01AE, 1, 218);
  (0x01AF, 0x01AF, 1, 1); (0x01B1, 0x01B2, 1, 217); (0x01B3, 0x01B5, 2, 1);
  (0x01B7, 0x01B7, 1, 219); (0x01B8, 0x01B8, 1, 1); (0x01BC, 0x01BC, 1, 1);
  (0x01C4, 0x01C4, 1, 2); (0x01C5, 0x01C5, 1, 1); (0x01C7, 0x01C7, 1, 2);
  (0x01C8, 0x01C8, 1, 1); (0x01CA, 0x01CA, 1, 2); (0x01CB, 0x01DB, 2, 1);
  (0x01DE, 0x01EE, 2, 1); (0x01F1, 0x01F1, 1, 2); (0x01F2, 0x01F4, 2, 1);
  (0x01F6, 0x01F6, 1, -97); (0x01F7, 0x01F7, 1, -56); (0x01F8, 0x021E, 2, 1);
  (0x0220, 0x0220, 1, -130); (0x0222, 0x0232, 2, 1); (0x023A, 0x023A, 1, 10795);
  (0x023B, 0x023B, 1, 1); (0x023D, 0x023D, 1, -163); (0x023E, 0x023E, 1, 10792);
  (0x0241, 0x0241, 1, 1); (0x0243, 0x0243, 1, -195); (0x0244, 0x0244, 1, 69);
  (0x0245, 0x0245, 1, 71); (0x0246, 0x024E, 2, 1); (0x0370, 0x0372, 2, 1);
  (0x0376, 0x0376, 1, 1); (0x037F, 0x037F, 1, 116); (0x0386, 0x0386, 1, 38);
  (0x0388, 0x038A, 1, 37); (0x038C, 0x038C, 1, 64); (0x038E, 0x038F, 1, 63);
  (0x0391, 0x03A1, 1, 32); (0x03A3, 0x03AB, 1, 32); (0x03CF, 0x03CF, 1, 8);
  (0x03D8, 0x03EE, 2, 1); (0x03F4, 0x03F4, 1, -60); (0x03F7, 0x03F7, 1, 1);
  (0x03F9, 0x03F9, 1, -7); (0x03FA, 0x03FA, 1, 1); (0x03FD, 0x03FF, 1, -130);
  (0x0400, 0x040F, 1, 80); (0x0410, 0x042F, 1, 32); (0x0460, 0x0480, 2, 1);
  (0x048A, 0x04BE, 2, 1); (0x04C0, 0x04C0, 1, 15); (0x04C1, 0x04CD, 2, 1);
  (0x04D0, 0x052E, 2, 1); (0x0531, 0x0556, 1, 48); (0x10A0, 0x10C5, 1, 7264);
  (0x10C7, 0x10C7, 1, 7264); (0x10CD, 0x10CD, 1, 7264); (0x13A0, 0x13EF, 1, 38864);
  (0x13F0, 0x13F5, 1, 8); (0x1C90, 0x1CBA, 1, -3008); (0x1CBD, 0x1CBF, 1, -3008);
  (0x1E00, 0x1E94, 2, 1); (0x1E9E, 0x1E9E, 1, -7615); (0x1EA0, 0x1EFE, 2, 1);
  (0x1F08, 0x1F0F, 1, -8); (0x1F18, 0x1F1D, 1, -8); (0x1F28, 0x1F2F, 1, -8);
  (0x1F38, 0x1F3F, 1, -8); (0x1F48, 0x1F4D, 1, -8); (0x1F59, 0x1F5F, 2, -8);
  (0x1F68, 0x1F6F, 1, -8); (0x1F88, 0x1F8F, 1, -8); (0x1F98, 0x1F9F, 1, -8);
  (0x1FA8, 0x1FAF, 1, -8); (0x1FB8, 0x1FB9, 1, -8); (0x1FBA, 0x1FBB, 1, -74);
  (0x1FBC, 0x1FBC, 1, -9); (0x1FC8, 0x1FCB, 1, -86); (0x1FCC, 0x1FCC, 1, -9);
  (0x1FD8, 0x1FD9, 1, -8); (0x1FDA, 0x1FDB, 1, -100); (0x1FE8, 0x1FE9, 1, -8);
  (0x1FEA, 0x1FEB, 1, -112); (0x1FEC, 0x1FEC, 1, -7); (0x1FF8, 0x1FF9, 1, -128);
  (0x1FFA, 0x1FFB, 1, -126); (0x1FFC, 0x1FFC, 1, -9); (0x2126, 0x2126, 1, -7517);
  (0x212A, 0x212A, 1, -8383); (0x212B, 0x212B, 1, -8262); (0x2132, 0x2132, 1, 28);
  (0x2160, 0x216F, 1, 16); (0x2183, 0x2183, 1, 1); (0x24B6, 0x24CF, 1, 26);
  (0x2C00, 0x2C2F, 1, 48); (0x2C60, 0x2C60, 1, 1); (0x2C62, 0x2C62, 1, -10743);
  (0x2C63, 0x2C63, 1, -3814); (0x2C64, 0x2C64, 1, -10727); (0x2C67, 0x2C6B, 2, 1);
  (0x2C6D, 0x2C6D, 1, -10780); (0x2C6E, 0x2C6E, 1, -10749);
  (0x2C6F, 0x2C6F, 1, -10783); (0x2C70, 0x2C70, 1, -10782); (0x2C72, 0x2C72, 1, 1);
  (0x2C75, 0x2C75, 1, 1); (0x2C7E, 0x2C7F, 1, -10815); (0x2C80, 0x2CE2, 2, 1);
  (0x2CEB, 0x2CED, 2, 1); (0x2CF2, 0x2CF2, 1, 1); (0xA640, 0xA66C, 2, 1);
  (0xA680, 0xA69A, 2, 1); (0xA722, 0xA72E, 2, 1); (0xA732, 0xA76E, 2, 1);
  (0xA779, 0xA77B, 2, 1); (0xA77D, 0xA77D, 1, -35332); (0xA77E, 0xA786, 2, 1);
  (0xA78B, 0xA78B, 1, 1); (0xA78D, 0xA78D, 1, -42280); (0xA790, 0xA792, 2, 1);
  (0xA796, 0xA7A8, 2, 1); (0xA7AA, 0xA7AA, 1, -42308); (0xA7AB, 0xA7AB, 1, -42319);
  (0xA7AC, 0xA7AC, 1, -42315); (0xA7AD, 0xA7AD, 1, -42305);
  (0xA7AE, 0xA7AE, 1, -42308); (0xA7B0, 0xA7B0, 1, -42258);
  (0xA7B1, 0xA7B1, 1, -42282); (0xA7B2, 0xA7B2, 1, -42261); (0xA7B3, 0xA7B3, 1, 928);
  (0xA7B4, 0xA7C2, 2, 1); (0xA7C4, 0xA7C4, 1, -48); (0xA7C5, 0xA7C5, 1, -42307);
  (0xA7C6, 0xA7C6, 1, -35384); (0xA7C7, 0xA7C9, 2, 1); (0xA7D0, 0xA7D0, 1, 1);
  (0xA7D6, 0xA7D8, 2, 1); (0xA7F5, 0xA7F5, 1, 1); (0xFF21, 0xFF3A, 1, 32);
  (0x10400, 0x10427, 1, 40); (0x104B0, 0x104D3, 1, 40); (0x10570, 0x1057A, 1, 39);
  (0x1057C, 0x1058A, 1, 39); (0x1058C, 0x10592, 1, 39); (0x10594, 0x10595, 1, 39);
  (0x10C80, 0x10CB2, 1, 64); (0x118A0, 0x118BF, 1, 32); (0x16E40, 0x16E5F, 1, 32);
  (0x1E900, 0x1E921, 1, 34)
].

Fixpoint lower_lookup (t : list (Z * Z * Z * Z)) (r : Z) : Z :=
  match t with
  | [] => r
  | (lo, hi, st, d) :: t' =>
      if in_range lo hi r then (if (r - lo) mod st =? 0 then r + d else r)
      else lower_lookup t' r
  end.

(** [unicode.ToLower]. *)
Definition unicode_ToLower (r : Z) : Z :=
  if r <=? 0x7F then (if in_range 65 90 r then r + 32 else r)
  else lower_lookup lower_ranges r.

Definition strings_ToLower (s : string) : string :=
  utf8_encode_all (map unicode_ToLower (utf8_decode s)).

(** A rune whose encoding holds no ['.'] and no separator byte: at least
    [0x80], or an ASCII code other than ['.'] and ['/']. *)
Definition rune_plain (r : Z) : Prop := 0x80 <= r \/ (0 <= r < 0x80 /\ r <> 46 /\ r <> 47).

Local Open Scope string_scope.

(** [detectFormatFromPath]: [(format, nil)] or [(-1, err)]. *)
Definition detectFormatFromPath (path : string) : Z * option GoErr :=
  let ext := strings_ToLower (filepath_Ext path) in
  if String.eqb ext ".jpg" || String.eqb ext ".jpeg" then (FormatJPEG, None)
  else if String.eqb ext ".png" then (FormatPNG, None)
  else (-1, Some (ErrUnsupportedImageFormat ext)).

Local Close Scope string_scope.

(* ------------------------------------------------------------------ *)
(** ** The file system seen by the batch engine *)

(** Regular files by path with their contents, and created directories. *)
Record FileSystem := { fs_files : gmap string (list byte); fs_dirs : gset string }.

Local Open Scope string_scope.

(** Lexical path operations of path/filepath (Unix). *)
Fixpoint last_sep_prefix (s : string) : option string :=
  match s with
  | EmptyString => None
  | String c r =>
      match last_sep_prefix r with
      | Some p => Some (String c p)
      | None => if Ascii.eqb c "/"%char then Some "" else None
      end
  end.

(** [strings.Split(s, "/")] and [strings.Join(l, "/")]. *)
Fixpoint split_slash (s : string) : list string :=
  match s with
  | EmptyString => [""]
  | String c r =>
      let l := split_slash r in
      if Ascii.eqb c "/"%char then "" :: l
      else match l with
           | x :: l' => String c x :: l'
           | [] => [String c ""]
           end
  end.

Fixpoint join_slash (l : list string) : string :=
  match l with
  | [] => ""
  | [x] => x
  | x :: l' => x ++ "/" ++ join_slash l'
  end.

Definition is_rooted (p : string) : bool :=
  match p with
  | String c _ => Ascii.eqb c "/"%char
  | EmptyString => false
  end.

(** One element of [filepath.Clean]'s scan, the elements kept so far being
    [acc], last first: an empty or ["."] element is dropped; [".."]
    removes the last real element, is dropped at the root, and is kept
    when there is no real element to remove in a relative path. *)
Definition clean_step (rooted : bool) (acc : list string) (elem : string) : list string :=
  if String.eqb elem "" || String.eqb elem "." then acc
  else if String.eqb elem ".." then
    match acc with
    | x :: acc' => if String.eqb x ".." then ".." :: acc else acc'
    | [] => if rooted then [] else [".."]
    end
  else elem :: acc.

(** [filepath.Clean(p)] as whether it is rooted and its elements. *)
Definition clean_parts (p : string) : bool * list string :=
  (is_rooted p, rev (fold_left (clean_step (is_rooted p)) (split_slash p) [])).

Definition render (rooted : bool) (segs : list string) : string :=
  if rooted then "/" ++ join_slash segs
  else match segs with [] => "." | _ => join_slash segs end.

(** [filepath.Clean] (Unix): the shortest lexically equivalent path, ["."]
    for an empty result. *)
Definition filepath_Clean (p : string) : string :=
  let '(rooted, segs) := clean_parts p in render rooted segs.

(** [filepath.Join(a, b)]: the non-empty arguments joined by ["/"], then
    cleaned; [""] when both are empty. *)
Definition filepath_Join (a b : string) : string :=
  if String.eqb a "" then (if String.eqb b "" then "" else filepath_Clean b)
  else filepath_Clean (a ++ "/" ++ b).

(** [filepath.Dir]: everything up to the last separator, cleaned. *)
Definition filepath_Dir (p : string) : string :=
  filepath_Clean (match last_sep_prefix p with None => "" | Some d => d ++ "/" end).

(** The elements of a clean path, for [filepath.Rel]. *)
Definition path_parts (p : string) : bool * list string :=
  (is_rooted p, List.filter (fun x => negb (String.eqb x "")) (split_slash p)).

(** The first differing elements of base and target, and what follows. *)
Fixpoint rel_strip (bs ts : list string) : list string * list string :=
  match bs, ts with
  | b :: bs', t :: ts' => if String.eqb b t then rel_strip bs' ts' else (bs, ts)
  | _, _ => (bs, ts)
  end.

(** [filepath.Rel(basepath, targpath)] (Unix); [None] stands for its
    error. *)
Definition filepath_Rel (basepath targpath : string) : option string :=
  let base := filepath_Clean basepath in
  let targ := filepath_Clean targpath in
  if String.eqb targ base then Some "." else
  let base := if String.eqb base "." then "" else base in
  let '(bslash, bsegs) := path_parts base in
  let '(tslash, tsegs) := path_parts targ in
  if negb (Bool.eqb bslash tslash) then None else
  let '(bs, ts) := rel_strip bsegs tsegs in
  match bs with
  | [] => Some (join_slash ts)
  | b :: _ =>
      if String.eqb b ".." then None
      else Some (join_slash (repeat ".." (length bs) ++ ts))
  end.

(** [path] without its trailing separators. *)
Fixpoint rtrim_slash (s : string) : string :=
  match s with
  | EmptyString => EmptyString
  | String c r =>
      let r' := rtrim_slash r in
      if String.eqb r' "" && Ascii.eqb c "/"%char then "" else String c r'
  end.

(** The directory [os.MkdirAll(path)] makes sure of first: [path] without
    its trailing separators, up to its last separator; none when that is
    empty. *)
Definition mkdir_parent (p : string) : option string :=
  match last_sep_prefix (rtrim_slash p) with
  | Some q => if String.eqb q "" then None else Some q
  | None => None
  end.

(** [path] and the parents [os.MkdirAll] goes through.  Each parent is
    shorter than its child, so [length path] steps are enough. *)
Fixpoint mkdir_chain_fuel (fuel : nat) (p : string) : list string :=
  p :: match mkdir_parent p, fuel with
       | Some q, S fuel' => mkdir_chain_fuel fuel' q
       | _, _ => []
       end.

Definition mkdir_chain (p : string) : list string := mkdir_chain_fuel (String.length p) p.

Local Close Scope string_scope.

(* ------------------------------------------------------------------ *)
(** ** The batch engine (ProcessBatch and processItem in jpeg.go) *)

Record Progress := {
  Total : Z;
  Completed : Z;
  Failed : Z;
  Current : string
}.

(** [DefaultBatchProcessor]; [progressCallback] is [nil] or a callback
    whose invocations are recorded by the engine model. *)
Record DefaultBatchProcessor := {
  jpegProc : Processor;
  pngProc : Processor;
  maxWorkers : Z;
  progressCallback : bool
}.

(** [NewDefaultBatchProcessor] with its two options applied. *)
Definition NewDefaultBatchProcessor {Image : Type}
    (image_Decode : list byte -> option Image)
    (jpeg_Encode : Image -> Z -> list byte * option GoErr)
    (png_Encode : Image -> PNGCompressionLevel -> list byte * option GoErr)
    (numCPU : Z) (withMaxWorkers : option Z) (withCallback : bool) : DefaultBatchProcessor :=
  let mw := match withMaxWorkers with Some n => n | None => numCPU end in
  {| jpegProc := {| Compress := JPEG_Compress Image image_Decode jpeg_Encode;
                    Convert := JPEG_Convert Image image_Decode jpeg_Encode |};
     pngProc := {| Compress := PNG_Compress Image image_Decode png_Encode;
                   Convert := PNG_Convert Image image_Decode png_Encode |};
     maxWorkers := if mw <? 1 then 1 else mw;
     progressCallback := withCallback |}.

Section Engine.

(** The operating system: permission to open, read errors, the outcome of
    [Mkdir] on a directory that is not there, of [Create], and the room
    left for writing each path. *)
Variable os_open_ok : string -> bool.
Variable os_read_err : string -> option GoErr.
Variable os_mkdir_ok : string -> bool.
Variable os_create_ok : string -> bool.
Variable os_write_cap : string -> option nat.

Variable bp : DefaultBatchProcessor.

Definition fail_item (item : BatchItem) (e : GoErr) : BatchResult :=
  {| Item := item; BResult := None; BError := Some e |}.

(** [os.MkdirAll(path)]: the directories afterwards, and the error.  A
    path that is a directory already is fine, one that is a file fails;
    otherwise the parent is made sure of first, then [path] is made.  The
    directories made before a failure stay. *)
Fixpoint MkdirAll_fuel (fuel : nat) (fs : FileSystem) (p : string) : gset string * option GoErr :=
  if bool_decide (p ∈ fs_dirs fs) then (fs_dirs fs, None)
  else if bool_decide (is_Some (fs_files fs !! p)) then (fs_dirs fs, Some (ErrIO "mkdir: not a directory"))
  else
    let '(dirs1, err1) :=
      match mkdir_parent p, fuel with
      | Some q, S fuel' => MkdirAll_fuel fuel' fs q
      | _, _ => (fs_dirs fs, None)
      end in
    match err1 with
    | Some e => (dirs1, Some e)
    | None =>
        if os_mkdir_ok p then ({[ p ]} ∪ dirs1, None)
        (* "foo/.": Lstat double-checks the directory is not there *)
        else if bool_decide (p ∈ dirs1) then (dirs1, None)
        else (dirs1, Some (ErrIO "mkdir"))
    end.

Definition MkdirAll (fs : FileSystem) (p : string) : gset string * option GoErr :=
  MkdirAll_fuel (String.length p) fs p.

(** [processItem]: returns the file system after the call and the result. *)
Definition processItem (ctx : CtxState) (fs : FileSystem) (item : BatchItem) : FileSystem * BatchResult :=
  let '(format, err) := detectFormatFromPath (InputPath item) in
  match err with
  | Some e => (fs, fail_item item e)
  | None =>
  match (if os_open_ok (InputPath item) then fs_files fs !! InputPath item else None) with
  | None => (fs, fail_item item (ErrWrap "failed to open input file" (ErrIO "open")))
  | Some _ =>
  let outDir := filepath_Dir (OutputPath item) in
  let '(dirs1, mkErr) := MkdirAll fs outDir in
  let fs1 := {| fs_files := fs_files fs; fs_dirs := dirs1 |} in
  match mkErr with
  | Some e => (fs1, fail_item item (ErrWrap "failed to create output directory" e))
  | None =>
  if negb (os_create_ok (OutputPath item))
  then (fs1, fail_item item (ErrWrap "failed to create output file" (ErrIO "create")))
  else
  (* os.Create creates or truncates the output file *)
  let fs2 := {| fs_files := <[ OutputPath item := [] ]> (fs_files fs1); fs_dirs := fs_dirs fs1 |} in
  let proc := if format =? FormatJPEG then Some (jpegProc bp)
              else if format =? FormatPNG then Some (pngProc bp) else None in
  match proc with
  | None => (fs2, fail_item item (ErrUnsupportedFormat format))
  | Some p =>
      (* the open input file is read through its handle, after the create *)
      let r := {| rd_data := default [] (fs_files fs2 !! InputPath item);
                  rd_err := os_read_err (InputPath item) |} in
      let w := {| wr_cap := os_write_cap (OutputPath item) |} in
      let co := Compress p ctx r w (Options item) in
      let fs3 := {| fs_files := <[ OutputPath item := co_written co ]> (fs_files fs2);
                    fs_dirs := fs_dirs fs2 |} in
      match co_err co with
      | Some e =>
          (* outFile.Close(); os.Remove(item.OutputPath) *)
          ({| fs_files := delete (OutputPath item) (fs_files fs3); fs_dirs := fs_dirs fs3 |},
           fail_item item e)
      | None => (fs3, {| Item := item; BResult := co_result co; BError := None |})
      end
  end
  end
  end
  end.

(** Go zero values of [BatchItem] and [BatchResult] ([make] fills the
    result slice with them). *)
Definition zero_options : CompressOptions :=
  {| Quality := 0; Level := 0; PreserveMetadata := false; MaxFileSize := 0 |}.
Definition zero_item : BatchItem :=
  {| InputPath := ""; OutputPath := ""; Options := zero_options |}.
Definition zero_result : BatchResult :=
  {| Item := zero_item; BResult := None; BError := None |}.

(** The state shared by the workers: the file system, the pre-sized result
    slice, the counters and the snapshots handed to the callback. *)
Record BatchState := {
  bs_fs : FileSystem;
  bs_results : list BatchResult;
  bs_progress : Progress;
  bs_snapshots : list Progress
}.

(** The [select] of a worker that took index [idx] from the channel, the
    context being in state [ctx]: a cancelled context gives a failed result
    at once, otherwise the item is processed. *)
Definition take_up (items : list BatchItem) (fs : FileSystem)
    (ev : nat * CtxState) : FileSystem * BatchResult :=
  let '(idx, ctx) := ev in
  let item := default zero_item (items !! idx) in
  match checkContext ctx with
  | Some e => (fs, fail_item item e)
  | None => processItem ctx fs item
  end.

(** One iteration of a worker's [for idx := range itemCh] loop. *)
Definition worker_step (items : list BatchItem) (st : BatchState)
    (ev : nat * CtxState) : BatchState :=
  let '(fs', result) := take_up items (bs_fs st) ev in
  let item := default zero_item (items !! fst ev) in
  let results' := <[ fst ev := result ]> (bs_results st) in
  let pr := bs_progress st in
  let pr' := if BError result then
               {| Total := Total pr; Completed := Completed pr; Failed := Failed pr + 1;
                  Current := Current pr |}
             else
               {| Total := Total pr; Completed := Completed pr + 1; Failed := Failed pr;
                  Current := Current pr |} in
  let p := {| Total := Total pr'; Completed := Completed pr'; Failed := Failed pr';
              Current := InputPath item |} in
  {| bs_fs := fs'; bs_results := results'; bs_progress := pr';
     bs_snapshots := if progressCallback bp then bs_snapshots st ++ [p] else bs_snapshots st |}.

(** [results := make([]BatchResult, len(items))] and
    [progress := Progress{Total: len(items)}]. *)
Definition batch_init (fs : FileSystem) (items : list BatchItem) : BatchState :=
  {| bs_fs := fs;
     bs_results := replicate (length items) zero_result;
     bs_progress := {| Total := Z.of_nat (length items); Completed := 0;
                       Failed := 0; Current := "" |};
     bs_snapshots := [] |}.

(** [ProcessBatch].  The workers' item iterations are taken one at a time
    in the order of [sched]: each entry is an index received from the
    channel and the context state its [select] observed.  Any completion
    order of the pool is such a sequence; the channel hands out every
    index exactly once (see [ValidSchedule]). *)
Definition ProcessBatch (fs : FileSystem) (items : list BatchItem)
    (sched : list (nat * CtxState)) : FileSystem * list BatchResult * list Progress :=
  match items with
  | [] => (fs, [], [])
  | _ =>
      let st := fold_left (worker_step items) sched (batch_init fs items) in
      (bs_fs st, bs_results st, bs_snapshots st)
  end.

End Engine.

(** The indices received from the buffered channel: each of
    [0 .. len(items)-1] exactly once. *)
Definition ValidSchedule {A} (items : list A) (sched : list (nat * CtxState)) : Prop :=
  (fst <$> sched) ≡ₚ seq 0 (length items).

(* ------------------------------------------------------------------ *)
(** ** Directory scanning (ScanDirectory in jpeg.go) *)

(** The tree under the input directory: regular files, directories with
    their entries in [ReadDir] (lexical) order, directories whose listing
    fails (e.g. permission denied), and symbolic links with what they
    point to ([None] when nothing). *)
#[warnings="-register-all"]
Inductive Entry :=
  | EFile (name : string)
  | EDir (name : string) (children : list Entry)
  | EDirUnreadable (name : string)
  | ELink (name : string) (target : option Entry).

Definition entry_name (e : Entry) : string :=
  match e with EFile n | EDir n _ | EDirUnreadable n | ELink n _ => n end.

(** Induction on entries, with the hypothesis for every child of a
    directory. *)
Fixpoint Entry_ind' (P : Entry -> Prop)
    (Hf : forall n, P (EFile n))
    (Hd : forall n cs, Forall P cs -> P (EDir n cs))
    (Hu : forall n, P (EDirUnreadable n))
    (Hl : forall n t, P (ELink n t)) (e : Entry) : P e :=
  match e with
  | EFile n => Hf n
  | EDir n cs =>
      Hd n cs ((fix go (cs : list Entry) : Forall P cs :=
                  match cs with
                  | [] => @List.Forall_nil _ P
                  | c :: cs' => @List.Forall_cons _ P c cs' (Entry_ind' P Hf Hd Hu Hl c) (go cs')
                  end) cs)
  | EDirUnreadable n => Hu n
  | ELink n t => Hl n t
  end.

(** [os.Stat] follows symbolic links; [None] for a dangling one. *)
Fixpoint stat_follow (e : Entry) : option Entry :=
  match e with
  | ELink _ (Some t) => stat_follow t
  | ELink _ None => None
  | _ => Some e
  end.

Local Open Scope string_scope.

(** The [WalkDir] callback on an entry that is not a directory. *)
Definition visit_file (inputDir outputDir : string) (opts : CompressOptions)
    (path : string) (items : list BatchItem) : list BatchItem + GoErr :=
  let '(_, fmtErr) := detectFormatFromPath path in
  match fmtErr with
  | Some _ => inl items            (* Skip unsupported files. *)
  | None =>
      match filepath_Rel inputDir path with
      | None => inr (ErrIO "rel")
      | Some relPath =>
          let outPath := filepath_Join outputDir relPath in
          inl (items ++ [{| InputPath := path; OutputPath := outPath; Options := opts |}])%list
      end
  end.

(** [filepath.WalkDir] with the callback of [ScanDirectory]: directories
    are skipped, an error handed to the callback ends the walk.  Entries
    come from [os.Lstat] and [ReadDir]: a symbolic link is not a
    directory, and is not followed. *)
Fixpoint walk (inputDir outputDir : string) (opts : CompressOptions)
    (path : string) (e : Entry) (items : list BatchItem) : list BatchItem + GoErr :=
  match e with
  | EFile _ | ELink _ _ => visit_file inputDir outputDir opts path items
  | EDir _ cs =>
      (fix go (cs : list Entry) (items : list BatchItem) : list BatchItem + GoErr :=
         match cs with
         | [] => inl items
         | c :: cs' =>
             match walk inputDir outputDir opts (filepath_Join path (entry_name c)) c items with
             | inl items' => go cs' items'
             | inr err => inr err
             end
         end) cs items
  | EDirUnreadable _ => inr (ErrIO "permission denied")
  end.

(** [ScanDirectory(inputDir, outputDir, opts...)]; [root] is the entry at
    [inputDir] as [os.Lstat] finds it, [None] when there is none; each
    option is a [WithCompressOptions].  [os.Stat] checks the path through
    links; the walk starts from the entry itself. *)
Definition ScanDirectory (root : option Entry) (inputDir outputDir : string)
    (opts : list CompressOptions) : list BatchItem + GoErr :=
  let cfg := fold_left (fun _ o => o) opts DefaultCompressOptions in
  match root with
  | None => inr (ErrWrap "failed to access input directory" (ErrIO "stat"))
  | Some e =>
      match stat_follow e with
      | None => inr (ErrWrap "failed to access input directory" (ErrIO "stat"))
      | Some (EFile _) | Some (ELink _ _) => inr (ErrIO "input path is not a directory")
      | Some _ =>
          match walk inputDir outputDir cfg inputDir e [] with
          | inl items => inl items
          | inr err => inr (ErrWrap "failed to scan directory" err)
          end
      end
  end.

(** The files (entries that are not directories) of an entry whose path
    relative to the input directory is [rel], as relative paths in walk
    order. *)
Fixpoint rels_under (rel : string) (e : Entry) : list string :=
  match e with
  | EFile _ | ELink _ _ => [rel]
  | EDir _ cs =>
      (fix go (cs : list Entry) : list string :=
         match cs with
         | [] => []
         | c :: cs' => (rels_under (rel ++ "/" ++ entry_name c) c ++ go cs')%list
         end) cs
  | EDirUnreadable _ => []
  end.

(** The regular files below the input directory, relative to it. *)
Definition root_rel_files (e : Entry) : list string :=
  match e with
  | EDir _ cs =>
      (fix go (cs : list Entry) : list string :=
         match cs with
         | [] => []
         | c :: cs' => (rels_under (entry_name c) c ++ go cs')%list
         end) cs
  | _ => []
  end.

(** Whether [detectFormatFromPath] accepts the path. *)
Definition recognized (path : string) : bool :=
  match (detectFormatFromPath path).2 with None => true | Some _ => false end.

(** A name a directory listing can hold: not empty, not ["."] or [".."],
    without a separator. *)
Definition name_ok (n : string) : bool :=
  negb (String.eqb n "") && negb (String.eqb n ".") && negb (String.eqb n "..")
  && negb (has_separator n).

(** The shape of [filepath.Clean]'s elements: leading [".."]s (none in
    a rooted path), then names. *)
Definition clean_ok (r : bool) (segs : list string) : Prop :=
  exists k ns, segs = (repeat ".." k ++ ns)%list /\ Forall (fun x => name_ok x = true) ns /\
               (r = true -> k = 0%nat).

(** Every entry below the root has such a name. *)
Fixpoint names_ok (e : Entry) : Prop :=
  match e with
  | EDir _ cs => (fix go (cs : list Entry) : Prop :=
                    match cs with
                    | [] => True
                    | c :: cs' => name_ok (entry_name c) = true /\ names_ok c /\ go cs'
                    end) cs
  | _ => True
  end.

(** No directory of the tree fails to list. *)
Fixpoint readable (e : Entry) : Prop :=
  match e with
  | EFile _ | ELink _ _ => True
  | EDir _ cs => (fix go (cs : list Entry) : Prop :=
                    match cs with [] => True | c :: cs' => readable c /\ go cs' end) cs
  | EDirUnreadable _ => False
  end.

Local Close Scope string_scope.

(* ------------------------------------------------------------------ *)
(** ** Derived figures of a [Result] (processor.go) *)

(** [float64(x)] of an [int64]: round to nearest even. *)
Definition float64_of_int64 (z : Z) : float :=
  SF2Prim (binary_normalize prec emax z 0 false).

(** [int64] subtraction wraps around. *)
Definition wrap_int64 (z : Z) : Z := (z + 2 ^ 63) mod 2 ^ 64 - 2 ^ 63.

Definition SavedBytes (r : Result) : Z := wrap_int64 (OriginalSize r - CompressedSize r).

Definition CompressionRatio (r : Result) : float :=
  if OriginalSize r =? 0 then 0%float
  else (float64_of_int64 (CompressedSize r) / float64_of_int64 (OriginalSize r) * 100)%float.

Definition SavedPercentage (r : Result) : float :=
  if OriginalSize r =? 0 then 0%float
  else (float64_of_int64 (SavedBytes r) / float64_of_int64 (OriginalSize r) * 100)%float.

(** [processItem] gets as far as [os.Create] of the output file: known
    extension, input opened, [MkdirAll] of the output directory and
    creation of the output file succeed. *)
Definition reaches_create (os_open_ok os_mkdir_ok os_create_ok : string -> bool)
    (fs : FileSystem) (item : BatchItem) : bool :=
  match detectFormatFromPath (InputPath item) with
  | (_, Some _) => false
  | (_, None) =>
      os_open_ok (InputPath item)
      && bool_decide (is_Some (fs_files fs !! InputPath item))
      && match (MkdirAll os_mkdir_ok fs (filepath_Dir (OutputPath item))).2 with
         | None => true
         | Some _ => false
         end
      && os_create_ok (OutputPath item)
  end.

(** A codec outcome carries a result exactly when it carries no error. *)
Definition paired (co : CodecOut) : Prop :=
  is_Some (co_result co) <-> co_err co = None.

(** The two figures in exact arithmetic, for comparison with the
    [float64] ones. *)
Definition exact_ratio (r : Result) : Q :=
  (inject_Z (CompressedSize r) / inject_Z (OriginalSize r) * inject_Z 100)%Q.

Definition exact_saved (r : Result) : Q :=
  (inject_Z (SavedBytes r) / inject_Z (OriginalSize r) * inject_Z 100)%Q.

(** [Result]s of sizes that fit an [int64] and can be read from a file. *)
Definition int64_sizes (r : Result) : Prop :=
  0 <= OriginalSize r <= MaxInt64 /\ 0 <= CompressedSize r <= MaxInt64.

(* ------------------------------------------------------------------ *)
(** ** Format and level names (processor types, part_010) *)

Local Open Scope string_scope.

Definition ImageFormat_String (f : Z) : string :=
  if Z.eqb f FormatJPEG then "jpeg" else if Z.eqb f FormatPNG then "png" else "unknown".

Definition ImageFormat_IsValid (f : Z) : bool :=
  (Z.eqb f FormatJPEG) || (Z.eqb f FormatPNG).

Definition ImageFormat_Extension (f : Z) : string :=
  if Z.eqb f FormatJPEG then ".jpg" else if Z.eqb f FormatPNG then ".png" else "".

Definition ImageFormat_MIMEType (f : Z) : string :=
  if Z.eqb f FormatJPEG then "image/jpeg" else if Z.eqb f FormatPNG then "image/png" else "".

Definition CompressionLevel_String (c : Z) : string :=
  if Z.eqb c CompressionLow then "low"
  else if Z.eqb c CompressionMedium then "medium"
  else if Z.eqb c CompressionHigh then "high"
  else "unknown".

Definition CompressionLevel_IsValid (c : Z) : bool :=
  (Z.eqb c CompressionLow) || (Z.eqb c CompressionMedium) || (Z.eqb c CompressionHigh).

(* ------------------------------------------------------------------ *)
(** ** Command-line helpers (internal/cli/compress.go, convert) *)

(** The parsers return [(value, nil)] or [(0, err)]; the error, made by
    [fmt.Errorf] with the offending input, is represented by that input. *)
Definition parseCompressionLevel (s : string) : Z * option string :=
  let l := strings_ToLower s in
  if String.eqb l "low" then (CompressionLow, None)
  else if String.eqb l "medium" then (CompressionMedium, None)
  else if String.eqb l "high" then (CompressionHigh, None)
  else (0, Some s).

Definition parseImageFormat (s : string) : Z * option string :=
  let l := strings_ToLower s in
  if String.eqb l "jpeg" || String.eqb l "jpg" then (FormatJPEG, None)
  else if String.eqb l "png" then (FormatPNG, None)
  else if String.eqb l "webp" then (FormatWEBP, None)
  else (0, Some s).

(** The CLI's [detectFormat]: [(format, nil)] or [(0, err)], the error
    carrying the lower-cased extension. *)
Definition detectFormat (path : string) : Z * option string :=
  let ext := strings_ToLower (filepath_Ext path) in
  if String.eqb ext ".jpg" || String.eqb ext ".jpeg" then (FormatJPEG, None)
  else if String.eqb ext ".png" then (FormatPNG, None)
  else (0, Some ext).

(** [strings.HasSuffix] and [strings.TrimSuffix]. *)
Definition strings_HasSuffix (s suffix : string) : bool :=
  (String.length suffix <=? String.length s)%nat &&
  String.eqb (String.substring (String.length s - String.length suffix)
                (String.length suffix) s) suffix.

Definition strings_TrimSuffix (s suffix : string) : string :=
  if strings_HasSuffix s suffix
  then String.substring 0 (String.length s - String.length suffix) s
  else s.

(** [defaultOutputPath]: ["_compressed"] inserted before the extension. *)
Definition defaultOutputPath (inputPath : string) : string :=
  let ext := filepath_Ext inputPath in
  let base := strings_TrimSuffix inputPath ext in
  base ++ "_compressed" ++ ext.

(** [defaultConvertOutputPath]: the extension replaced by the target's. *)
Definition defaultConvertOutputPath (inputPath : string) (format : Z) : string :=
  let ext := filepath_Ext inputPath in
  let base := strings_TrimSuffix inputPath ext in
  base ++ ImageFormat_Extension format.

Local Close Scope string_scope.

(** Number of results [IsSuccess] holds for, and of the others. *)
Definition count_success (l : list BatchResult) : nat := length (List.filter IsSuccess l).
Definition count_failed (l : list BatchResult) : nat :=
  length (List.filter (fun br => negb (IsSuccess br)) l).

(* ================================================================== *)
(** * Sample inputs *)

Local Open Scope string_scope.

(** A decoder taking any byte string for the image it holds, encoders
    emitting the image's bytes, and one failing decoder. *)
Definition ex_decode (b : list byte) : option (list byte) := Some b.
Definition ex_bad_decode (b : list byte) : option (list byte) := None.
Definition ex_jpeg_encode (img : list byte) (q : Z) : list byte * option GoErr := (img, None).
Definition ex_png_encode (img : list byte) (l : PNGCompressionLevel) : list byte * option GoErr :=
  (img, None).

(** A PNG encoder writing one byte naming the effort level it was given. *)
Definition ex_png_level_encode (img : list byte) (l : PNGCompressionLevel) : list byte * option GoErr :=
  (match l with
   | DefaultCompression => [Byte.x00]
   | NoCompression => [Byte.x01]
   | BestSpeed => [Byte.x02]
   | BestCompression => [Byte.x03]
   end, None).

Definition ex_bp : DefaultBatchProcessor :=
  NewDefaultBatchProcessor ex_decode ex_jpeg_encode ex_png_encode 4 None true.
Definition ex_bad_bp : DefaultBatchProcessor :=
  NewDefaultBatchProcessor ex_bad_decode ex_jpeg_encode ex_png_encode 4 None true.

Definition ex_fs : FileSystem :=
  {| fs_files := <["in/a.jpg" := [Byte.x01; Byte.x02]]> (<["in/b.png" := [Byte.x03]]> ∅);
     fs_dirs := {[ "in" ]} |}.

Definition ex_items : list BatchItem :=
  [ {| InputPath := "in/a.jpg"; OutputPath := "out/a.jpg"; Options := DefaultCompressOptions |};
    {| InputPath := "in/b.png"; OutputPath := "out/sub/b.png"; Options := DefaultCompressOptions |} ].

(** The second item is taken up first; the context is cancelled before
    the first one is. *)
Definition ex_sched : list (nat * CtxState) := [(1%nat, CtxActive); (0%nat, CtxCanceled)].

Definition ex_all_ok (s : string) : bool := true.
Definition ex_no_read_err (s : string) : option GoErr := None.
Definition ex_no_cap (s : string) : option nat := None.

(** A reader over three bytes, and options with a limit of two. *)
Definition ex_reader : Reader := {| rd_data := [Byte.x01; Byte.x02; Byte.x03]; rd_err := None |}.
Definition ex_writer : Writer := {| wr_cap := None |}.
Definition ex_limit2 : CompressOptions :=
  {| Quality := 0; Level := CompressionMedium; PreserveMetadata := false; MaxFileSize := 2 |}.
Definition ex_meta : CompressOptions :=
  {| Quality := 0; Level := CompressionMedium; PreserveMetadata := true; MaxFileSize := 0 |}.

(** An encoder emitting [q] bytes for quality [q], and a negative quality
    override with the High level. *)
Definition ex_quality_encode (img : list byte) (q : Z) : list byte * option GoErr :=
  (repeat Byte.x00 (Z.to_nat q), None).
Definition ex_negative_quality : CompressOptions :=
  {| Quality := -5; Level := CompressionHigh; PreserveMetadata := false; MaxFileSize := 0 |}.

(** The tree of the spec's example: [a.jpg], [b.png], [c.txt] and
    [sub/d.jpeg]. *)
Definition ex_tree : Entry :=
  EDir "in" [EFile "a.jpg"; EFile "b.png"; EFile "c.txt"; EDir "sub" [EFile "d.jpeg"]].

Local Close Scope string_scope.

(* ================================================================== *)
(** * Properties of the batch engine *)

Section BatchProofs.

Variable os_open_ok : string -> bool.
Variable os_read_err : string -> option GoErr.
Variable os_mkdir_ok : string -> bool.
Variable os_create_ok : string -> bool.
Variable os_write_cap : string -> option nat.
Variable bp : DefaultBatchProcessor.

Local Abbreviation PI := (processItem os_open_ok os_read_err os_mkdir_ok os_create_ok os_write_cap bp).
Local Abbreviation TU := (take_up os_open_ok os_read_err os_mkdir_ok os_create_ok os_write_cap bp).
Local Abbreviation WS := (worker_step os_open_ok os_read_err os_mkdir_ok os_create_ok os_write_cap bp).

Lemma detectFormatFromPath_ok p f :
  detectFormatFromPath p = (f, None) -> f = FormatJPEG \/ f = FormatPNG.
Proof.
  unfold detectFormatFromPath.
  repeat case_match; intros [= <-]; auto.
Qed.

Lemma processItem_Item ctx fs item : Item (PI ctx fs item).2 = item.
Proof. unfold processItem. repeat case_match; done. Qed.

Lemma take_up_Item items fs ev :
  Item (TU items fs ev).2 = default zero_item (items !! ev.1).
Proof.
  destruct ev as [idx ctx]. unfold take_up.
  case_match; [done|]. apply processItem_Item.
Qed.

Lemma take_up_cancelled items fs idx ctx e :
  checkContext ctx = Some e ->
  TU items fs (idx, ctx) = (fs, fail_item (default zero_item (items !! idx)) e).
Proof. unfold take_up. intros ->. done. Qed.

Lemma worker_step_results items st ev :
  bs_results (WS items st ev) = <[ ev.1 := (TU items (bs_fs st) ev).2 ]> (bs_results st).
Proof. unfold worker_step. destruct (TU items (bs_fs st) ev). done. Qed.

Lemma worker_step_fs items st ev : bs_fs (WS items st ev) = (TU items (bs_fs st) ev).1.
Proof. unfold worker_step. destruct (TU items (bs_fs st) ev). done. Qed.

Lemma fold_untouched items sched st i :
  i ∉ (fst <$> sched) ->
  bs_results (fold_left (WS items) sched st) !! i = bs_results st !! i.
Proof.
  revert st. induction sched as [|ev sched IH]; intros st Hi; [done|].
  simpl. rewrite IH by set_solver.
  rewrite worker_step_results. apply list_lookup_insert_ne. set_solver.
Qed.

Lemma fold_length items sched st :
  length (bs_results (fold_left (WS items) sched st)) = length (bs_results st).
Proof.
  revert st. induction sched as [|ev sched IH]; intros st; [done|].
  simpl. rewrite IH, worker_step_results. apply length_insert.
Qed.

(** Each index taken up ends with the result its own iteration produced,
    whatever the order of the iterations. *)
Lemma fold_results items (Q : nat * CtxState -> BatchResult -> Prop) :
  (forall fs ev, Q ev (TU items fs ev).2) ->
  forall sched st, NoDup ((fst <$> sched)) ->
  forall ev, ev ∈ sched -> (ev.1 < length (bs_results st))%nat ->
  exists r, bs_results (fold_left (WS items) sched st) !! ev.1 = Some r /\ Q ev r.
Proof.
  intros HQ sched. induction sched as [|ev0 sched IH]; intros st Hnd ev Hin Hlt.
  - set_solver.
  - simpl in *. apply NoDup_cons in Hnd as [Hnot Hnd].
    apply elem_of_cons in Hin as [-> | Hin].
    + exists (TU items (bs_fs st) ev0).2. split; [|apply HQ].
      rewrite fold_untouched by done.
      rewrite worker_step_results. apply list_lookup_insert_eq. done.
    + apply IH; [done|done|]. rewrite worker_step_results, length_insert. done.
Qed.

Lemma NoDup_fst_unique {A B} (l : list (A * B)) x y1 y2 :
  NoDup (fst <$> l) -> (x, y1) ∈ l -> (x, y2) ∈ l -> y1 = y2.
Proof.
  induction l as [|[a b] l IH]; simpl; intros Hnd H1 H2; [set_solver|].
  apply NoDup_cons in Hnd as [Hnot Hnd].
  apply elem_of_cons in H1, H2.
  destruct H1 as [H1|H1], H2 as [H2|H2]; simplify_eq/=; try done.
  - exfalso. apply Hnot. apply list_elem_of_fmap. exists (a, y2). done.
  - exfalso. apply Hnot. apply list_elem_of_fmap. exists (a, y1). done.
  - eapply IH; done.
Qed.

Lemma ValidSchedule_NoDup {A} (items : list A) sched :
  ValidSchedule items sched -> NoDup ((fst <$> sched)).
Proof.
  unfold ValidSchedule. intros Hp. rewrite Hp. apply NoDup_seq.
Qed.

Lemma ValidSchedule_cover {A} (items : list A) sched i :
  ValidSchedule items sched -> (i < length items)%nat ->
  exists ev, ev ∈ sched /\ ev.1 = i.
Proof.
  unfold ValidSchedule. intros Hp Hi.
  assert (Hin : i ∈ (fst <$> sched)).
  { rewrite Hp. apply elem_of_seq. lia. }
  apply list_elem_of_fmap in Hin as (ev & -> & Hev). eauto.
Qed.

Lemma ValidSchedule_bound {A} (items : list A) sched ev :
  ValidSchedule items sched -> ev ∈ sched -> (ev.1 < length items)%nat.
Proof.
  unfold ValidSchedule. intros Hp Hin.
  assert (Hi : ev.1 ∈ (fst <$> sched)) by (apply list_elem_of_fmap; eauto).
  rewrite Hp in Hi. apply elem_of_seq in Hi. lia.
Qed.

Local Abbreviation PB := (ProcessBatch os_open_ok os_read_err os_mkdir_ok os_create_ok os_write_cap bp).

Lemma ProcessBatch_fold fs items sched :
  items <> [] ->
  PB fs items sched =
    (let st := fold_left (WS items) sched (batch_init fs items) in
     (bs_fs st, bs_results st, bs_snapshots st)).
Proof. destruct items; done. Qed.

(** Every index of a valid schedule ends with the result of its own
    iteration. *)
Lemma ProcessBatch_lookup (Q : nat * CtxState -> BatchResult -> Prop) fs items sched :
  (forall fs ev, Q ev (TU items fs ev).2) ->
  ValidSchedule items sched ->
  length (PB fs items sched).1.2 = length items /\
  forall i r, (PB fs items sched).1.2 !! i = Some r ->
  exists ev, ev ∈ sched /\ ev.1 = i /\ Q ev r.
Proof.
  intros HQ Hv. destruct (decide (items = [])) as [->|Hne].
  { split; [done|]. intros i r Hr. simpl in Hr. done. }
  rewrite ProcessBatch_fold by done. simpl. split.
  - rewrite fold_length. simpl. apply length_replicate.
  - intros i r Hr.
    assert (Hi : (i < length items)%nat).
    { apply lookup_lt_Some in Hr. rewrite fold_length in Hr. simpl in Hr.
      rewrite length_replicate in Hr. done. }
    destruct (ValidSchedule_cover items sched i Hv Hi) as (ev & Hev & <-).
    destruct (fold_results items Q HQ sched (batch_init fs items)
                (ValidSchedule_NoDup items sched Hv) ev Hev) as (r' & Hr' & HQ').
    { simpl. rewrite length_replicate. done. }
    exists ev. split; [done|]. split; [done|]. congruence.
Qed.

(** C1: [ProcessBatch] returns one [BatchResult] per item, in input order:
    the result slice has the length of [items] and its [i]-th entry
    carries [items[i]], whatever order the workers take the items in and
    whatever the context does meanwhile. *)
Theorem ProcessBatch_results_in_input_order (fs : FileSystem) (items : list BatchItem)
    (sched : list (nat * CtxState)) :
  ValidSchedule items sched ->
  length (PB fs items sched).1.2 = length items /\
  forall i : nat, (i < length items)%nat ->
    Item <$> (PB fs items sched).1.2 !! i = items !! i.
Proof.
  intros Hv.
  destruct (ProcessBatch_lookup (fun ev r => Item r = default zero_item (items !! ev.1))
              fs items sched (take_up_Item items) Hv) as [Hlen Hlook].
  split; [done|]. intros i Hi.
  destruct (lookup_lt_is_Some_2 (PB fs items sched).1.2 i) as [r Hr]; [lia|].
  destruct (Hlook i r Hr) as (ev & _ & <- & HQ).
  destruct (lookup_lt_is_Some_2 items ev.1 Hi) as [it Hit].
  rewrite Hr. simpl. rewrite HQ, Hit. done.
Qed.

Lemma fold_fs_cancelled items sched st :
  Forall (fun ev => checkContext ev.2 <> None) sched ->
  bs_fs (fold_left (WS items) sched st) = bs_fs st.
Proof.
  revert st. induction sched as [|[idx ctx] sched IH]; intros st Hall; [done|].
  inversion Hall as [|? ? Hc Hrest]; subst. simpl.
  rewrite IH by done. rewrite worker_step_fs.
  destruct (checkContext ctx) as [e|] eqn:Ec; [|done].
  rewrite take_up_cancelled with (e := e) by done. done.
Qed.

(** C3: an item taken up while the shared context is already cancelled
    (or past its deadline) gets a result carrying the context's error,
    and its iteration leaves the file system untouched; the batch still
    returns one result per item, and a batch run entirely under a
    cancelled context creates no file. *)
Theorem ProcessBatch_cancelled_items (fs : FileSystem) (items : list BatchItem)
    (sched : list (nat * CtxState)) :
  ValidSchedule items sched ->
  length (PB fs items sched).1.2 = length items /\
  (forall (idx : nat) (ctx : CtxState) (e : GoErr), (idx, ctx) ∈ sched ->
     checkContext ctx = Some e ->
     (PB fs items sched).1.2 !! idx = (fun it => fail_item it e) <$> items !! idx) /\
  (forall (st : BatchState) (idx : nat) (ctx : CtxState) (e : GoErr),
     checkContext ctx = Some e -> bs_fs (WS items st (idx, ctx)) = bs_fs st) /\
  (Forall (fun ev => checkContext ev.2 <> None) sched -> (PB fs items sched).1.1 = fs).
Proof.
  intros Hv.
  pose (Q := fun (ev : nat * CtxState) (r : BatchResult) =>
               forall e, checkContext ev.2 = Some e ->
               r = fail_item (default zero_item (items !! ev.1)) e).
  assert (HQ : forall fs ev, Q ev (TU items fs ev).2).
  { intros fs' [idx ctx] e He. rewrite take_up_cancelled with (e := e) by done. done. }
  destruct (ProcessBatch_lookup Q fs items sched HQ Hv) as [Hlen Hlook].
  split; [done|]. split; [|split].
  - intros idx ctx e Hin He.
    pose proof (ValidSchedule_bound items sched (idx, ctx) Hv Hin) as Hi. simpl in Hi.
    destruct (lookup_lt_is_Some_2 (PB fs items sched).1.2 idx) as [r Hr]; [lia|].
    destruct (Hlook idx r Hr) as ([idx' ctx'] & Hin' & Heq & HQr). simpl in Heq. subst idx'.
    assert (ctx' = ctx) as ->.
    { pose proof (ValidSchedule_NoDup items sched Hv) as Hnd.
      apply (NoDup_fst_unique sched idx); done. }
    destruct (lookup_lt_is_Some_2 items idx Hi) as [it Hit].
    rewrite Hr, Hit. simpl. f_equal. rewrite (HQr e He). simpl. rewrite Hit. done.
  - intros st idx ctx e He. rewrite worker_step_fs, take_up_cancelled with (e := e) by done. done.
  - intros Hall. destruct (decide (items = [])) as [->|Hne]; [done|].
    rewrite ProcessBatch_fold by done. simpl. rewrite fold_fs_cancelled by done. done.
Qed.


(** A failed or cancelled [processItem] result is paired; so is a
    success, when the codecs' outcomes are. *)
Lemma processItem_paired :
  (forall ctx r w o, paired (Compress (jpegProc bp) ctx r w o)) ->
  (forall ctx r w o, paired (Compress (pngProc bp) ctx r w o)) ->
  forall ctx fs item,
    is_Some (BResult (PI ctx fs item).2) <-> BError (PI ctx fs item).2 = None.
Proof.
  intros Hj Hp ctx fs item. unfold processItem.
  repeat case_match; simplify_eq/=;
    try (split; [intros [? [=]] | discriminate]);
    try (split; [intros; done | intros; eexists; done]).
  all: split; [done|intros _].
  all: first [apply Hj; done | apply Hp; done].
Qed.

Lemma take_up_paired :
  (forall ctx r w o, paired (Compress (jpegProc bp) ctx r w o)) ->
  (forall ctx r w o, paired (Compress (pngProc bp) ctx r w o)) ->
  forall items fs ev,
    is_Some (BResult (TU items fs ev).2) <-> BError (TU items fs ev).2 = None.
Proof.
  intros Hj Hp items fs [idx ctx]. unfold take_up.
  case_match; simpl.
  - split; [intros [? [=]] | discriminate].
  - apply processItem_paired; done.
Qed.

End BatchProofs.

Lemma run_codec_paired (m : CM Result) : paired (run_codec m).
Proof.
  unfold paired, run_codec. destruct (m (0%nat, [])) as [[a|e] [n w]]; simpl.
  - split; [done|intros _; eexists; done].
  - split; [intros [? [=]]|discriminate].
Qed.

(** C2: with the processors [NewDefaultBatchProcessor] installs, every
    [BatchResult] of [ProcessBatch] has exactly one of [Result] and
    [Error] set: [Result] is present exactly when [Error] is nil. *)
Theorem ProcessBatch_result_xor_error {Image : Type}
    (image_Decode : list byte -> option Image)
    (jpeg_Encode : Image -> Z -> list byte * option GoErr)
    (png_Encode : Image -> PNGCompressionLevel -> list byte * option GoErr)
    (numCPU : Z) (withMaxWorkers : option Z) (withCallback : bool)
    (os_open_ok : string -> bool) (os_read_err : string -> option GoErr)
    (os_mkdir_ok os_create_ok : string -> bool) (os_write_cap : string -> option nat)
    (fs : FileSystem) (items : list BatchItem) (sched : list (nat * CtxState)) :
  ValidSchedule items sched ->
  Forall (fun br => is_Some (BResult br) <-> BError br = None)
    (ProcessBatch os_open_ok os_read_err os_mkdir_ok os_create_ok os_write_cap
       (NewDefaultBatchProcessor image_Decode jpeg_Encode png_Encode
          numCPU withMaxWorkers withCallback) fs items sched).1.2.
Proof.
  intros Hv.
  set (bp := NewDefaultBatchProcessor image_Decode jpeg_Encode png_Encode
               numCPU withMaxWorkers withCallback).
  destruct (ProcessBatch_lookup os_open_ok os_read_err os_mkdir_ok os_create_ok os_write_cap bp
              (fun _ br => is_Some (BResult br) <-> BError br = None) fs items sched)
    as [_ Hlook]; [|done|].
  { intros fs' ev. apply take_up_paired; intros; apply run_codec_paired. }
  apply Forall_lookup. intros i br Hbr.
  destruct (Hlook i br Hbr) as (? & ? & ? & HQ). done.
Qed.

Lemma ProcessBatch_results_in_input_order_witness :
  ValidSchedule ex_items ex_sched /\
  (length (ProcessBatch ex_all_ok ex_no_read_err ex_all_ok ex_all_ok ex_no_cap ex_bp
             ex_fs ex_items ex_sched).1.2 = length ex_items /\
   forall i : nat, (i < length ex_items)%nat ->
     Item <$> (ProcessBatch ex_all_ok ex_no_read_err ex_all_ok ex_all_ok ex_no_cap ex_bp
                 ex_fs ex_items ex_sched).1.2 !! i = ex_items !! i).
Proof.
  split.
  - unfold ValidSchedule. simpl. apply perm_swap.
  - apply (ProcessBatch_results_in_input_order ex_all_ok ex_no_read_err ex_all_ok ex_all_ok
             ex_no_cap ex_bp ex_fs ex_items ex_sched).
    unfold ValidSchedule. simpl. apply perm_swap.
Defined.

Lemma ProcessBatch_result_xor_error_witness :
  ValidSchedule ex_items ex_sched /\
  Forall (fun br => is_Some (BResult br) <-> BError br = None)
    (ProcessBatch ex_all_ok ex_no_read_err ex_all_ok ex_all_ok ex_no_cap
       (NewDefaultBatchProcessor ex_decode ex_jpeg_encode ex_png_encode 4 None true)
       ex_fs ex_items ex_sched).1.2.
Proof.
  split.
  - unfold ValidSchedule. simpl. apply perm_swap.
  - apply (ProcessBatch_result_xor_error ex_decode ex_jpeg_encode ex_png_encode 4 None true
             ex_all_ok ex_no_read_err ex_all_ok ex_all_ok ex_no_cap ex_fs ex_items ex_sched).
    unfold ValidSchedule. simpl. apply perm_swap.
Defined.

Lemma ProcessBatch_cancelled_items_witness :
  ValidSchedule ex_items ex_sched /\
  (length (ProcessBatch ex_all_ok ex_no_read_err ex_all_ok ex_all_ok ex_no_cap ex_bp
             ex_fs ex_items ex_sched).1.2 = length ex_items /\
   (forall (idx : nat) (ctx : CtxState) (e : GoErr), (idx, ctx) ∈ ex_sched ->
      checkContext ctx = Some e ->
      (ProcessBatch ex_all_ok ex_no_read_err ex_all_ok ex_all_ok ex_no_cap ex_bp
         ex_fs ex_items ex_sched).1.2 !! idx = (fun it => fail_item it e) <$> ex_items !! idx) /\
   (forall (st : BatchState) (idx : nat) (ctx : CtxState) (e : GoErr),
      checkContext ctx = Some e ->
      bs_fs (worker_step ex_all_ok ex_no_read_err ex_all_ok ex_all_ok ex_no_cap ex_bp
               ex_items st (idx, ctx)) = bs_fs st) /\
   (Forall (fun ev => checkContext ev.2 <> None) ex_sched ->
      (ProcessBatch ex_all_ok ex_no_read_err ex_all_ok ex_all_ok ex_no_cap ex_bp
         ex_fs ex_items ex_sched).1.1 = ex_fs)).
Proof.
  split.
  - unfold ValidSchedule. simpl. apply perm_swap.
  - apply (ProcessBatch_cancelled_items ex_all_ok ex_no_read_err ex_all_ok ex_all_ok
             ex_no_cap ex_bp ex_fs ex_items ex_sched).
    unfold ValidSchedule. simpl. apply perm_swap.
Defined.


(* ================================================================== *)
(** * Properties of the codecs *)

Section CodecProofs.

Variable Image : Type.
Variable image_Decode : list byte -> option Image.

Lemma stream_body_invalid encode msg fmt ctx r w opts e :
  Validate opts = Some e ->
  run_codec (stream_body Image image_Decode encode msg fmt ctx r w opts) =
  {| co_result := None; co_err := Some e; co_read := 0; co_written := [] |}.
Proof. intros He. unfold run_codec, stream_body, cm_bind, cm_check. rewrite He. done. Qed.

Lemma stream_body_too_large encode msg fmt ctx r w opts :
  PreserveMetadata opts = false -> checkContext ctx = None ->
  0 < MaxFileSize opts < MaxInt64 ->
  MaxFileSize opts < Z.of_nat (length (rd_data r)) ->
  run_codec (stream_body Image image_Decode encode msg fmt ctx r w opts) =
  {| co_result := None; co_err := Some (ErrWrap "failed to read input" ErrFileTooLarge);
     co_read := Z.to_nat (MaxFileSize opts + 1); co_written := [] |}.
Proof.
  intros Hpm Hc [Hpos Hmax] Hlen.
  assert (Hv : Validate opts = None).
  { unfold Validate. rewrite Hpm. destruct (Z.ltb_spec (MaxFileSize opts) 0); [lia|done]. }
  unfold run_codec, stream_body, cm_bind, cm_check. rewrite Hv, Hc. simpl.
  unfold readAllWithLimit.
  destruct (Z.leb_spec (MaxFileSize opts) 0); [lia|].
  destruct (Z.eqb_spec (MaxFileSize opts) MaxInt64); [lia|].
  unfold cm_bind, io_ReadAll, LimitReader. simpl.
  assert (Hn : (length (rd_data r) <? Z.to_nat (MaxFileSize opts + 1))%nat = false).
  { apply Nat.ltb_ge. lia. }
  rewrite Hn. simpl.
  rewrite length_take. rewrite Nat.min_l by lia.
  destruct (Z.gtb_spec (Z.of_nat (Z.to_nat (MaxFileSize opts + 1))) (MaxFileSize opts)); [|lia].
  simpl. done.
Qed.

Lemma stream_body_ctx encode msg fmt ctx r w opts e :
  Validate opts = None -> checkContext ctx = Some e ->
  run_codec (stream_body Image image_Decode encode msg fmt ctx r w opts) =
  {| co_result := None; co_err := Some e; co_read := 0; co_written := [] |}.
Proof. intros Hv Hc. unfold run_codec, stream_body, cm_bind, cm_check. rewrite Hv, Hc. done. Qed.

Lemma stream_body_no_limit_read encode msg fmt ctx r w opts :
  PreserveMetadata opts = false -> checkContext ctx = None -> MaxFileSize opts = 0 ->
  co_read (run_codec (stream_body Image image_Decode encode msg fmt ctx r w opts)) =
  length (rd_data r).
Proof.
  intros Hpm Hc H0.
  assert (Hv : Validate opts = None) by (unfold Validate; rewrite Hpm, H0; done).
  unfold run_codec, stream_body, cm_bind, cm_check. rewrite Hv, Hc. simpl.
  unfold readAllWithLimit. rewrite H0. simpl. unfold cm_bind, io_ReadAll. simpl.
  destruct (rd_err r); simpl; [done|].
  try rewrite Hc. simpl. destruct (image_Decode (rd_data r)); simpl; [|done].
  destruct (encode i) as [enc eerr]. unfold io_Write. simpl.
  unfold wrap, cm_throw, cm_ret. repeat case_match; simplify_eq/=; done.
Qed.

End CodecProofs.

Lemma PNG_Convert_match {Image} dec enc ctx r w o :
  PNG_Convert Image dec enc ctx r w {| Format := FormatPNG; CompressOpts := o |} =
  run_codec (stream_body Image dec (fun img => enc img (ToPNGCompressionLevel (Level o)))
               "failed to encode PNG" FormatPNG ctx r w o).
Proof. reflexivity. Qed.

Lemma WEBP_Convert_match {Image} dec enc ctx r w o :
  WEBP_Convert Image dec enc ctx r w {| Format := FormatWEBP; CompressOpts := o |} =
  run_codec (stream_body Image dec (fun img => enc img (webp_convert_quality o))
               "failed to encode WebP" FormatWEBP ctx r w o).
Proof. reflexivity. Qed.

Lemma PNG_Convert_mismatch {Image} dec enc ctx r w o f :
  f <> FormatPNG ->
  PNG_Convert Image dec enc ctx r w {| Format := f; CompressOpts := o |} =
  {| co_result := None; co_err := Some (ErrTargetMismatch "PNGProcessor" f);
     co_read := 0; co_written := [] |}.
Proof. intros Hf. unfold PNG_Convert. simpl. destruct (Z.eqb_spec f FormatPNG); [done|]. reflexivity. Qed.

Lemma WEBP_Convert_mismatch {Image} dec enc ctx r w o f :
  f <> FormatWEBP ->
  WEBP_Convert Image dec enc ctx r w {| Format := f; CompressOpts := o |} =
  {| co_result := None; co_err := Some (ErrTargetMismatch "WEBPProcessor" f);
     co_read := 0; co_written := [] |}.
Proof. intros Hf. unfold WEBP_Convert. simpl. destruct (Z.eqb_spec f FormatWEBP); [done|]. reflexivity. Qed.







(** The code's answer on a negative [Quality] (C7): with [Quality = -5]
    and [Level = High], JPEG [Compress] and WebP [Convert] encode at 90
    (the level default) where WebP [Compress] encodes at 1 (an encoder
    emitting [q] bytes shows the quality). *)
Lemma quality_negative_runs :
  co_result (JPEG_Compress (list byte) ex_decode ex_quality_encode CtxActive ex_reader ex_writer
               ex_negative_quality) =
    Some {| OriginalSize := 3; CompressedSize := 90; ResultFormat := FormatJPEG |} /\
  co_result (JPEG_Convert (list byte) ex_decode ex_quality_encode CtxActive ex_reader ex_writer
               {| Format := FormatJPEG; CompressOpts := ex_negative_quality |}) =
    Some {| OriginalSize := 3; CompressedSize := 90; ResultFormat := FormatJPEG |} /\
  co_result (WEBP_Convert (list byte) ex_decode ex_quality_encode CtxActive ex_reader ex_writer
               {| Format := FormatWEBP; CompressOpts := ex_negative_quality |}) =
    Some {| OriginalSize := 3; CompressedSize := 90; ResultFormat := FormatWEBP |} /\
  co_result (WEBP_Compress (list byte) ex_decode ex_quality_encode CtxActive ex_reader ex_writer
               ex_negative_quality) =
    Some {| OriginalSize := 3; CompressedSize := 1; ResultFormat := FormatWEBP |}.
Proof. repeat split; reflexivity. Qed.

(** C7: the quality each codec hands its encoder.  JPEG ([Compress] and
    [Convert]) and WebP [Convert] treat a [Quality <= 0] as unset and cap
    a positive one at 100; WebP [Compress] treats only 0 as unset and
    clamps any other value into [1,100]; an unset quality comes from the
    level, 60/75/90 for Low/Medium/High (75 otherwise), as a [float32] for
    WebP.  PNG, [Compress] and [Convert] alike, takes no quality: [Quality]
    is ignored and the level alone gives
    BestSpeed/DefaultCompression/BestCompression (DefaultCompression
    otherwise).  So a negative override is not clamped to 1 by JPEG and
    WebP [Convert]: they use the level default, where WebP [Compress]
    clamps it to 1. *)
Theorem quality_resolution {Image : Type} (image_Decode : list byte -> option Image)
    (jpeg_Encode : Image -> Z -> list byte * option GoErr)
    (png_Encode : Image -> PNGCompressionLevel -> list byte * option GoErr)
    (webp_Encode : Image -> Z -> list byte * option GoErr)
    (ctx : CtxState) (r : Reader) (w : Writer) (opts : CompressOptions) (q f : Z) :
  (jpeg_quality opts = if Quality opts <=? 0 then ToJPEGQuality (Level opts)
                       else Z.min (Quality opts) 100) /\
  (webp_convert_quality opts = if Quality opts <=? 0 then ToWebPQuality (Level opts)
                               else Z.min (Quality opts) 100) /\
  (webp_compress_quality opts = if Quality opts =? 0 then ToWebPQuality (Level opts)
                                else Z.max 1 (Z.min (Quality opts) 100)) /\
  (Quality opts < 0 ->
   jpeg_quality opts = ToJPEGQuality (Level opts) /\
   webp_convert_quality opts = ToWebPQuality (Level opts) /\
   webp_compress_quality opts = 1) /\
  (ToJPEGQuality CompressionLow = 60 /\ ToJPEGQuality CompressionMedium = 75 /\
   ToJPEGQuality CompressionHigh = 90) /\
  (ToWebPQuality CompressionLow = 60 /\ ToWebPQuality CompressionMedium = 75 /\
   ToWebPQuality CompressionHigh = 90) /\
  (ToPNGCompressionLevel CompressionLow = BestSpeed /\
   ToPNGCompressionLevel CompressionMedium = DefaultCompression /\
   ToPNGCompressionLevel CompressionHigh = BestCompression) /\
  (~ (Level opts = CompressionLow \/ Level opts = CompressionMedium \/
      Level opts = CompressionHigh) ->
   ToJPEGQuality (Level opts) = 75 /\ ToWebPQuality (Level opts) = 75 /\
   ToPNGCompressionLevel (Level opts) = DefaultCompression) /\
  JPEG_Compress Image image_Decode jpeg_Encode ctx r w opts =
    JPEG_Compress Image image_Decode (fun img _ => jpeg_Encode img (jpeg_quality opts)) ctx r w opts /\
  JPEG_Convert Image image_Decode jpeg_Encode ctx r w {| Format := f; CompressOpts := opts |} =
    JPEG_Compress Image image_Decode (fun img _ => jpeg_Encode img (jpeg_quality opts)) ctx r w opts /\
  WEBP_Compress Image image_Decode webp_Encode ctx r w opts =
    WEBP_Compress Image image_Decode (fun img _ => webp_Encode img (webp_compress_quality opts))
      ctx r w opts /\
  WEBP_Convert Image image_Decode webp_Encode ctx r w {| Format := FormatWEBP; CompressOpts := opts |} =
    WEBP_Convert Image image_Decode (fun img _ => webp_Encode img (webp_convert_quality opts))
      ctx r w {| Format := FormatWEBP; CompressOpts := opts |} /\
  PNG_Compress Image image_Decode png_Encode ctx r w opts =
    PNG_Compress Image image_Decode png_Encode ctx r w (with_quality q opts) /\
  PNG_Compress Image image_Decode png_Encode ctx r w opts =
    PNG_Compress Image image_Decode (fun img _ => png_Encode img (ToPNGCompressionLevel (Level opts)))
      ctx r w opts /\
  PNG_Convert Image image_Decode png_Encode ctx r w {| Format := f; CompressOpts := opts |} =
    PNG_Convert Image image_Decode png_Encode ctx r w
      {| Format := f; CompressOpts := with_quality q opts |} /\
  PNG_Convert Image image_Decode png_Encode ctx r w {| Format := f; CompressOpts := opts |} =
    PNG_Convert Image image_Decode (fun img _ => png_Encode img (ToPNGCompressionLevel (Level opts)))
      ctx r w {| Format := f; CompressOpts := opts |}.
Proof.
  split; [|split; [|split; [|split]]].
  - unfold jpeg_quality, clamp_quality. unfold ToJPEGQuality.
    destruct (Z.leb_spec (Quality opts) 0); [repeat case_match; lia|].
    destruct (Z.ltb_spec (Quality opts) 1); [lia|].
    destruct (Z.gtb_spec (Quality opts) 100); lia.
  - unfold webp_convert_quality, clamp_quality. unfold ToWebPQuality.
    destruct (Z.leb_spec (Quality opts) 0); [repeat case_match; lia|].
    destruct (Z.ltb_spec (Quality opts) 1); [lia|].
    destruct (Z.gtb_spec (Quality opts) 100); lia.
  - unfold webp_compress_quality, clamp_quality.
    destruct (Z.eqb_spec (Quality opts) 0); [done|].
    destruct (Z.ltb_spec (Quality opts) 1); [lia|].
    destruct (Z.gtb_spec (Quality opts) 100); lia.
  - intros Hq. unfold jpeg_quality, webp_convert_quality, webp_compress_quality, clamp_quality.
    destruct (Z.leb_spec (Quality opts) 0); [|lia].
    destruct (Z.eqb_spec (Quality opts) 0); [lia|].
    destruct (Z.ltb_spec (Quality opts) 1); [|lia].
    unfold ToJPEGQuality, ToWebPQuality. repeat split; repeat case_match; done.
  - repeat split; try reflexivity.
    all: unfold ToJPEGQuality, ToWebPQuality, ToPNGCompressionLevel,
           CompressionLow, CompressionMedium, CompressionHigh in *.
    all: destruct (Z.eqb_spec (Level opts) 0); [tauto|].
    all: destruct (Z.eqb_spec (Level opts) 1); [tauto|].
    all: destruct (Z.eqb_spec (Level opts) 2); [tauto|].
    all: done.
Qed.

(* ================================================================== *)
(** * Format detection and directory scanning *)

Local Open Scope string_scope.

(** C8: [detectFormatFromPath] recognizes [.jpg], [.jpeg] and [.png] in
    any case, but rejects [.webp] ([file.webp], [FILE.WEBP]) with the
    unsupported-format error, where batch_test.go expects [FormatWEBP]. *)
Theorem detectFormatFromPath_webp_rejected :
  detectFormatFromPath "file.webp" = (-1, Some (ErrUnsupportedImageFormat ".webp")) /\
  detectFormatFromPath "FILE.WEBP" = (-1, Some (ErrUnsupportedImageFormat ".webp")) /\
  detectFormatFromPath "dir/Photo.JPeG" = (FormatJPEG, None) /\
  detectFormatFromPath "icon.PNG" = (FormatPNG, None).
Proof. vm_compute. repeat split. Qed.

Lemma string_app_assoc (a b c : string) : (a ++ b) ++ c = a ++ (b ++ c).
Proof.
  induction a as [|x a IH]; [reflexivity|].
  change (String x ((a ++ b) ++ c) = String x (a ++ (b ++ c))). rewrite IH. reflexivity.
Qed.

(* ------------------------------------------------------------------ *)
(** ** Lexical paths *)

Lemma name_ok_spec x :
  name_ok x = true -> x <> "" /\ x <> "." /\ x <> ".." /\ has_separator x = false.
Proof.
  unfold name_ok. intros H.
  destruct (String.eqb_spec x ""), (String.eqb_spec x "."), (String.eqb_spec x ".."),
    (has_separator x); simpl in H; done.
Qed.

Lemma split_slash_nonempty s : split_slash s <> [].
Proof.
  destruct s as [|c s]; simpl; [done|].
  destruct (Ascii.eqb c "/"); [done|]. destruct (split_slash s); done.
Qed.

Lemma split_slash_app a b : split_slash (a ++ String "/" b) = (split_slash a ++ split_slash b)%list.
Proof.
  induction a as [|c a IH]; [reflexivity|].
  change (String c a ++ String "/" b) with (String c (a ++ String "/" b)). simpl. rewrite IH.
  destruct (Ascii.eqb c "/"); [done|].
  pose proof (split_slash_nonempty a) as Hne.
  destruct (split_slash a); done.
Qed.

Lemma split_slash_no_sep x : has_separator x = false -> split_slash x = [x].
Proof.
  induction x as [|c x IH]; [done|]. simpl. intros H.
  apply orb_false_iff in H as [Hc Hx]. rewrite Hc, IH by done. done.
Qed.

Lemma split_slash_plain s : Forall (fun x => has_separator x = false) (split_slash s).
Proof.
  induction s as [|c s IH]; simpl; [constructor; done|].
  destruct (Ascii.eqb c "/") eqn:Hc; [constructor; done|].
  destruct (split_slash s) as [|x l]; [constructor; [simpl; rewrite Hc; done|constructor]|].
  inversion IH; subst. constructor; [simpl; rewrite Hc; done|done].
Qed.

Lemma join_slash_snoc ns x : ns <> [] -> join_slash (ns ++ [x])%list = join_slash ns ++ "/" ++ x.
Proof.
  induction ns as [|a ns IH]; [done|]. intros _.
  destruct ns as [|b ns]; [reflexivity|].
  change (a ++ "/" ++ join_slash ((b :: ns) ++ [x]) =
          (a ++ "/" ++ join_slash (b :: ns)) ++ "/" ++ x).
  rewrite IH by done. rewrite !string_app_assoc. done.
Qed.

Lemma split_join_slash ns :
  ns <> [] -> Forall (fun x => has_separator x = false) ns -> split_slash (join_slash ns) = ns.
Proof.
  induction ns as [|a ns IH]; [done|]. intros _ Hf. inversion Hf as [|? ? Ha Hns]; subst.
  destruct ns as [|b ns]; [apply split_slash_no_sep; done|].
  change (split_slash (a ++ String "/" (join_slash (b :: ns))) = a :: b :: ns).
  rewrite split_slash_app, split_slash_no_sep, IH by done. done.
Qed.

Lemma is_rooted_app a b : a <> "" -> is_rooted (a ++ b) = is_rooted a.
Proof. destruct a; [done|reflexivity]. Qed.

(** Elements that are neither empty nor hold a separator. *)
Lemma join_slash_plain segs :
  segs <> [] -> Forall (fun x => x <> "" /\ has_separator x = false) segs ->
  is_rooted (join_slash segs) = false /\ join_slash segs <> "" /\
  split_slash (join_slash segs) = segs.
Proof.
  intros Hne Hf.
  assert (Hs : split_slash (join_slash segs) = segs).
  { apply split_join_slash; [done|]. eapply Forall_impl; [exact Hf|]. intros x [_ H]; done. }
  split; [|split; [|done]].
  - destruct segs as [|x segs]; [done|]. inversion Hf as [|? ? [Hx Hsx] _]; subst.
    destruct x as [|c x]; [done|]. simpl in Hsx. apply orb_false_iff in Hsx as [Hc _].
    destruct segs; [simpl; rewrite Hc; done|].
    change (is_rooted (String c x ++ "/" ++ join_slash (s :: segs)) = false).
    rewrite is_rooted_app by done. simpl. rewrite Hc. done.
  - intros He. rewrite He in Hs. simpl in Hs. subst segs.
    inversion Hf as [|? ? [Hx _] _]. done.
Qed.

Lemma clean_step_name r acc x : name_ok x = true -> clean_step r acc x = x :: acc.
Proof.
  intros H. apply name_ok_spec in H as (H1 & H2 & H3 & _). unfold clean_step.
  destruct (String.eqb_spec x ""), (String.eqb_spec x "."), (String.eqb_spec x ".."); done.
Qed.

Lemma fold_clean_names r ns acc :
  Forall (fun x => name_ok x = true) ns ->
  fold_left (clean_step r) ns acc = (rev ns ++ acc)%list.
Proof.
  revert acc. induction ns as [|x ns IH]; intros acc Hf; [done|].
  inversion Hf; subst. simpl. rewrite clean_step_name by done. rewrite IH by done.
  rewrite <- app_assoc. done.
Qed.

Lemma fold_clean_dots k j :
  fold_left (clean_step false) (repeat ".." k) (repeat ".." j) = repeat ".." (k + j).
Proof.
  revert j. induction k as [|k IH]; intros j; [done|]. simpl.
  replace (clean_step false (repeat ".." j) "..") with (repeat ".." (S j)).
  - rewrite IH, Nat.add_succ_r. reflexivity.
  - destruct j; reflexivity.
Qed.

Lemma clean_ok_plain r segs :
  clean_ok r segs -> Forall (fun x => x <> "" /\ has_separator x = false) segs.
Proof.
  intros (k & ns & -> & Hns & _). apply Forall_app. split.
  - apply Forall_forall. intros x Hx. apply list_elem_of_In, repeat_spec in Hx. subst x. done.
  - eapply Forall_impl; [exact Hns|]. intros x Hx. apply name_ok_spec in Hx. tauto.
Qed.

Lemma clean_ok_app r segs ns :
  clean_ok r segs -> Forall (fun x => name_ok x = true) ns -> clean_ok r (segs ++ ns)%list.
Proof.
  intros (k & ns0 & -> & Hns0 & Hk) Hns. exists k, (ns0 ++ ns)%list.
  split; [rewrite app_assoc; done|]. split; [apply Forall_app; done|done].
Qed.

(** [filepath.Clean] leaves a clean path as it is. *)
Lemma clean_parts_render r segs : clean_ok r segs -> clean_parts (render r segs) = (r, segs).
Proof.
  intros Hok. pose proof (clean_ok_plain r segs Hok) as Hpl.
  destruct Hok as (k & ns & Hsegs & Hns & Hk). destruct r.
  - rewrite Hk in Hsegs by done. simpl in Hsegs. subst segs.
    destruct ns as [|x ns']; [reflexivity|].
    unfold render, clean_parts.
    change ("/" ++ join_slash (x :: ns')) with ("" ++ String "/" (join_slash (x :: ns'))).
    change (is_rooted ("" ++ String "/" (join_slash (x :: ns')))) with true.
    rewrite split_slash_app.
    destruct (join_slash_plain (x :: ns')) as (_ & _ & ->); [done|done|].
    rewrite fold_left_app.
    change (fold_left (clean_step true) (split_slash "") []) with (@nil string).
    rewrite fold_clean_names by done. rewrite app_nil_r, rev_involutive. done.
  - unfold render. destruct segs as [|x segs'] eqn:Hs.
    + reflexivity.
    + rewrite <- Hs in *. unfold clean_parts.
      destruct (join_slash_plain segs) as (Hr & _ & Hsp); [subst; done|done|].
      rewrite Hr, Hsp, Hsegs, fold_left_app.
      replace ([] : list string) with (repeat ".." 0) at 1 by done.
      rewrite fold_clean_dots, fold_clean_names by done.
      rewrite rev_app_distr, rev_involutive, Nat.add_0_r, rev_repeat. done.
Qed.

(** [filepath.Clean]'s elements always have the clean shape. *)
Lemma clean_parts_ok p : clean_ok (clean_parts p).1 (clean_parts p).2.
Proof.
  unfold clean_parts. simpl. generalize (is_rooted p) as r. intros r.
  assert (Hinv : forall elems acc,
    Forall (fun x => has_separator x = false) elems ->
    (exists k nsr, acc = (nsr ++ repeat ".." k)%list /\ Forall (fun x => name_ok x = true) nsr /\
                   (r = true -> k = 0%nat)) ->
    exists k nsr, fold_left (clean_step r) elems acc = (nsr ++ repeat ".." k)%list /\
                  Forall (fun x => name_ok x = true) nsr /\ (r = true -> k = 0%nat)).
  { induction elems as [|e elems IH]; intros acc Hf Hacc; [done|].
    inversion Hf as [|? ? He Helems]; subst. simpl. apply IH; [done|].
    destruct Hacc as (k & nsr & -> & Hnsr & Hk).
    unfold clean_step.
    destruct (String.eqb_spec e ""); simpl; [exists k, nsr; done|].
    destruct (String.eqb_spec e "."); simpl; [exists k, nsr; done|].
    destruct (String.eqb_spec e "..").
    - destruct nsr as [|y nsr].
      + destruct k as [|k].
        * destruct r; [exists 0%nat, []; done|]. exists 1%nat, []. done.
        * simpl. exists (S (S k)), []. split; [done|]. split; [done|].
          intros Hr. specialize (Hk Hr). done.
      + inversion Hnsr as [|? ? Hy Hnsr']; subst.
        apply name_ok_spec in Hy as (_ & _ & Hy & _).
        simpl. destruct (String.eqb_spec y ".."); [done|]. exists k, nsr. done.
    - exists k, (e :: nsr). split; [done|]. split; [|done]. constructor; [|done].
      unfold name_ok. rewrite He.
      destruct (String.eqb_spec e ""), (String.eqb_spec e "."), (String.eqb_spec e ".."); done. }
  destruct (Hinv (split_slash p) [] (split_slash_plain p)) as (k & nsr & Heq & Hnsr & Hk).
  { exists 0%nat, []. done. }
  rewrite Heq. exists k, (rev nsr). split.
  - rewrite rev_app_distr, rev_repeat. done.
  - split; [apply Forall_rev; done|done].
Qed.

Lemma clean_parts_snoc p ns :
  p <> "" -> ns <> [] -> Forall (fun x => name_ok x = true) ns ->
  clean_parts (p ++ "/" ++ join_slash ns) = ((clean_parts p).1, ((clean_parts p).2 ++ ns)%list).
Proof.
  intros Hp Hne Hns. unfold clean_parts. simpl. rewrite is_rooted_app by done.
  change ("/" ++ join_slash ns) with (String "/" (join_slash ns)).
  rewrite split_slash_app, split_join_slash; [|done|].
  - rewrite fold_left_app, fold_clean_names by done.
    rewrite rev_app_distr, rev_involutive. done.
  - eapply Forall_impl; [exact Hns|]. intros x Hx. apply name_ok_spec in Hx. tauto.
Qed.

Lemma names_plain ns :
  Forall (fun x => name_ok x = true) ns -> Forall (fun x => x <> "" /\ has_separator x = false) ns.
Proof. intros H. eapply Forall_impl; [exact H|]. intros x Hx. apply name_ok_spec in Hx. tauto. Qed.

(** Joining names to a path: its clean elements, then the names. *)
Lemma Join_names p ns :
  ns <> [] -> Forall (fun x => name_ok x = true) ns ->
  filepath_Join p (join_slash ns) = render (clean_parts p).1 ((clean_parts p).2 ++ ns)%list.
Proof.
  intros Hne Hns. pose proof (names_plain ns Hns) as Hpl.
  destruct (join_slash_plain ns Hne Hpl) as (Hr & Hnz & Hsp).
  unfold filepath_Join. destruct (String.eqb_spec p "") as [->|Hp].
  - destruct (String.eqb_spec (join_slash ns) ""); [done|].
    unfold filepath_Clean, clean_parts. rewrite Hr, Hsp, fold_clean_names by done.
    rewrite app_nil_r, rev_involutive. reflexivity.
  - unfold filepath_Clean. rewrite clean_parts_snoc by done. done.
Qed.

Lemma path_parts_render r segs :
  clean_ok r segs -> (r = true \/ segs <> []) -> path_parts (render r segs) = (r, segs).
Proof.
  intros Hok Hne. pose proof (clean_ok_plain r segs Hok) as Hpl.
  assert (Hfl : List.filter (fun x => negb (String.eqb x "")) segs = segs).
  { clear Hne Hok. induction segs as [|x segs IH]; [done|].
    inversion Hpl as [|? ? [Hx _] Hpl']; subst. simpl.
    destruct (String.eqb_spec x ""); [done|]. simpl. rewrite IH by done. done. }
  destruct r.
  - destruct segs as [|x segs']; [reflexivity|].
    unfold render, path_parts.
    change ("/" ++ join_slash (x :: segs')) with ("" ++ String "/" (join_slash (x :: segs'))).
    change (is_rooted ("" ++ String "/" (join_slash (x :: segs')))) with true.
    rewrite split_slash_app.
    destruct (join_slash_plain (x :: segs')) as (_ & _ & ->); [done|done|].
    rewrite List.filter_app, Hfl. reflexivity.
  - destruct Hne as [|Hne]; [done|]. unfold render.
    destruct segs as [|x segs'] eqn:Hs; [done|]. rewrite <- Hs in *.
    destruct (join_slash_plain segs) as (Hr & _ & Hsp); [done|done|].
    unfold path_parts. rewrite Hr, Hsp, Hfl. done.
Qed.

Lemma rel_strip_app s ns : rel_strip s (s ++ ns)%list = ([], ns).
Proof.
  induction s as [|x s IH]; [destruct ns; done|]. simpl. rewrite String.eqb_refl. done.
Qed.

(** [filepath.Rel] of a path and that path joined with names gives the
    names back. *)
Lemma Rel_Join_names p ns :
  ns <> [] -> Forall (fun x => name_ok x = true) ns ->
  filepath_Rel p (filepath_Join p (join_slash ns)) = Some (join_slash ns).
Proof.
  intros Hne Hns. rewrite Join_names by done.
  pose proof (clean_parts_ok p) as Hok.
  destruct (clean_parts p) as [r0 s0] eqn:Hcp. simpl in *.
  assert (Hok' : clean_ok r0 (s0 ++ ns)%list) by (apply clean_ok_app; done).
  assert (Hb : filepath_Clean p = render r0 s0) by (unfold filepath_Clean; rewrite Hcp; done).
  assert (Ht : filepath_Clean (render r0 (s0 ++ ns)%list) = render r0 (s0 ++ ns)%list).
  { unfold filepath_Clean. rewrite clean_parts_render by done. done. }
  unfold filepath_Rel. rewrite Hb, Ht.
  destruct (String.eqb_spec (render r0 (s0 ++ ns)%list) (render r0 s0)) as [Heq|_].
  { apply (f_equal clean_parts) in Heq. rewrite !clean_parts_render in Heq by done.
    injection Heq as Heq. apply (f_equal (@length string)) in Heq.
    rewrite length_app in Heq. destruct ns; [done|simpl in Heq; lia]. }
  assert (Hne' : r0 = true \/ (s0 ++ ns)%list <> []).
  { right. destruct ns; [done|]. intros H. apply app_eq_nil in H as [_ H]. done. }
  destruct (String.eqb_spec (render r0 s0) ".") as [Hdot|Hdot].
  - apply (f_equal clean_parts) in Hdot. rewrite clean_parts_render in Hdot by done.
    injection Hdot as -> ->.
    rewrite (path_parts_render false ([] ++ ns)%list) by done.
    change (path_parts "") with (false, @nil string). reflexivity.
  - rewrite (path_parts_render r0 s0); [|done|].
    + rewrite path_parts_render by done. simpl.
      rewrite Bool.eqb_reflx, rel_strip_app. done.
    + destruct r0; [left; done|right]. intros ->. done.
Qed.

(** The parts of a path joined with names are clean. *)
Lemma clean_parts_Join p ns :
  ns <> [] -> Forall (fun x => name_ok x = true) ns ->
  clean_parts (filepath_Join p (join_slash ns)) = ((clean_parts p).1, ((clean_parts p).2 ++ ns)%list).
Proof.
  intros Hne Hns. rewrite Join_names by done. apply clean_parts_render.
  apply clean_ok_app; [apply clean_parts_ok|done].
Qed.

Lemma walk_dir_cons inputDir outputDir cfg path n c cs items :
  walk inputDir outputDir cfg path (EDir n (c :: cs)) items =
  match walk inputDir outputDir cfg (filepath_Join path (entry_name c)) c items with
  | inl items' => walk inputDir outputDir cfg path (EDir n cs) items'
  | inr err => inr err
  end.
Proof. reflexivity. Qed.

Section ScanProofs.

Variables inputDir outputDir : string.
Variable cfg : CompressOptions.

Local Abbreviation items_of rels :=
  (map (fun rel => {| InputPath := filepath_Join inputDir rel;
                      OutputPath := filepath_Join outputDir rel; Options := cfg |})
       (List.filter (fun rel => recognized (filepath_Join inputDir rel)) rels)).

(** Walking an entry found at [inputDir] joined with the names [ns]
    appends the items of its recognized files, in order. *)
Lemma walk_entry (e : Entry) :
  forall (ns : list string) (items : list BatchItem),
  ns <> [] -> Forall (fun x => name_ok x = true) ns -> names_ok e -> readable e ->
  walk inputDir outputDir cfg (filepath_Join inputDir (join_slash ns)) e items =
  inl (items ++ items_of (rels_under (join_slash ns) e))%list.
Proof.
  induction e as [n | n cs IH | n | n t] using Entry_ind'; intros ns items Hne Hns Hok Hr.
  - simpl. unfold visit_file, recognized.
    destruct (detectFormatFromPath (filepath_Join inputDir (join_slash ns))) as [f [err|]]; simpl.
    + rewrite app_nil_r. done.
    + rewrite Rel_Join_names by done. done.
  - revert items Hok Hr. induction cs as [|c cs IHcs]; intros items Hok Hr.
    + simpl. rewrite app_nil_r. done.
    + inversion IH as [|? ? IHc IHrest]; subst.
      destruct Hok as (Hnc & Hokc & Hokcs). destruct Hr as [Hrc Hrcs].
      rewrite walk_dir_cons.
      assert (Hpath : filepath_Join (filepath_Join inputDir (join_slash ns)) (entry_name c) =
                      filepath_Join inputDir (join_slash (ns ++ [entry_name c])%list)).
      { change (entry_name c) with (join_slash [entry_name c]) at 1.
        rewrite (Join_names (filepath_Join inputDir (join_slash ns))) by (try constructor; done).
        rewrite clean_parts_Join by done.
        rewrite Join_names; [|destruct ns; done|apply Forall_app; split; [done|constructor; done]].
        simpl. rewrite app_assoc. done. }
      rewrite Hpath.
      rewrite (IHc (ns ++ [entry_name c])%list items); [| destruct ns; done
                                                   | apply Forall_app; split; [done|constructor; done]
                                                   | done | done].
      rewrite (IHcs IHrest _ Hokcs Hrcs).
      change (rels_under (join_slash ns) (EDir n (c :: cs)))
        with (rels_under (join_slash ns ++ "/" ++ entry_name c) c
              ++ rels_under (join_slash ns) (EDir n cs))%list.
      rewrite <- join_slash_snoc by done.
      rewrite List.filter_app, map_app, app_assoc. done.
  - done.
  - simpl. unfold visit_file, recognized.
    destruct (detectFormatFromPath (filepath_Join inputDir (join_slash ns))) as [f [err|]]; simpl.
    + rewrite app_nil_r. done.
    + rewrite Rel_Join_names by done. done.
Qed.

Lemma walk_root n (cs : list Entry) :
  forall items : list BatchItem, names_ok (EDir n cs) -> readable (EDir n cs) ->
  walk inputDir outputDir cfg inputDir (EDir n cs) items =
  inl (items ++ items_of (root_rel_files (EDir n cs)))%list.
Proof.
  induction cs as [|c cs IHcs]; intros items Hok Hr.
  - simpl. rewrite app_nil_r. done.
  - destruct Hok as (Hnc & Hokc & Hokcs). destruct Hr as [Hrc Hrcs].
    rewrite walk_dir_cons.
    pose proof (walk_entry c [entry_name c] items) as W.
    change (join_slash [entry_name c]) with (entry_name c) in W.
    rewrite W by (try constructor; done).
    rewrite (IHcs _ Hokcs Hrcs).
    change (root_rel_files (EDir n (c :: cs)))
      with (rels_under (entry_name c) c ++ root_rel_files (EDir n cs))%list.
    rewrite List.filter_app, map_app, app_assoc. done.
Qed.

End ScanProofs.




(** The spec's example: three items, [c.txt] left out, [sub/] kept. *)
Lemma ScanDirectory_example :
  ScanDirectory (Some ex_tree) "in" "out" [] =
    inl [ {| InputPath := "in/a.jpg"; OutputPath := "out/a.jpg"; Options := DefaultCompressOptions |};
          {| InputPath := "in/b.png"; OutputPath := "out/b.png"; Options := DefaultCompressOptions |};
          {| InputPath := "in/sub/d.jpeg"; OutputPath := "out/sub/d.jpeg";
             Options := DefaultCompressOptions |} ].
Proof. vm_compute. reflexivity. Qed.

Local Close Scope string_scope.

(* ================================================================== *)
(** * Derived figures *)

(** C10, as stated, fails: for [OriginalSize = 3] and [CompressedSize = 1]
    the [float64] sum of [CompressionRatio] and [SavedPercentage] is
    99.99999999999999, not 100. *)
Lemma ratio_sum_counterexample :
  PrimFloat.eqb
    (CompressionRatio {| OriginalSize := 3; CompressedSize := 1; ResultFormat := FormatJPEG |}
     + SavedPercentage {| OriginalSize := 3; CompressedSize := 1; ResultFormat := FormatJPEG |})%float
    100%float = false.
Proof. vm_compute. reflexivity. Qed.

Lemma SavedBytes_no_wrap (r : Result) :
  int64_sizes r -> SavedBytes r = OriginalSize r - CompressedSize r.
Proof.
  unfold int64_sizes, SavedBytes, wrap_int64, MaxInt64. intros [Ho Hc].
  rewrite Z.mod_small; lia.
Qed.

(** C10 (amended): an [OriginalSize] of 0 gives 0 for both figures, with
    no division; otherwise the two figures are [float64] roundings of
    [CompressedSize/OriginalSize*100] and
    [(OriginalSize-CompressedSize)/OriginalSize*100], which for sizes
    within [0, MaxInt64] add up to exactly 100 before rounding (the
    [int64] subtraction does not wrap), while their [float64] sum may
    miss 100 by rounding. *)
Theorem ratio_percentages (r : Result) :
  (OriginalSize r = 0 -> CompressionRatio r = 0%float /\ SavedPercentage r = 0%float) /\
  (OriginalSize r <> 0 ->
   CompressionRatio r =
     (float64_of_int64 (CompressedSize r) / float64_of_int64 (OriginalSize r) * 100)%float /\
   SavedPercentage r =
     (float64_of_int64 (SavedBytes r) / float64_of_int64 (OriginalSize r) * 100)%float) /\
  (int64_sizes r -> OriginalSize r <> 0 ->
   SavedBytes r = OriginalSize r - CompressedSize r /\
   (exact_ratio r + exact_saved r == inject_Z 100)%Q).
Proof.
  split; [|split].
  - intros H0. unfold CompressionRatio, SavedPercentage. rewrite H0. done.
  - intros Hn. unfold CompressionRatio, SavedPercentage.
    destruct (Z.eqb_spec (OriginalSize r) 0); [done|]. done.
  - intros Hs Hn. pose proof (SavedBytes_no_wrap r Hs) as Hsb. split; [exact Hsb|].
    unfold exact_ratio, exact_saved. rewrite Hsb.
    assert (Ho : ~ (inject_Z (OriginalSize r) == 0)%Q).
    { intros H. apply Hn. apply (inject_Z_injective (OriginalSize r) 0). exact H. }
    unfold Z.sub. rewrite inject_Z_plus, inject_Z_opp.
    field. exact Ho.
Qed.

(* ================================================================== *)
(** * Detection, format names and the command-line path helpers *)

Local Open Scope string_scope.

Lemma has_separator_app a b : has_separator (a ++ b) = has_separator a || has_separator b.
Proof.
  induction a as [|c a IH]; [done|].
  change (String c a ++ b) with (String c (a ++ b)). simpl. rewrite IH. apply orb_assoc.
Qed.

(** The extension of [a ++ b] is that of [b] once [b] has one, or holds a
    separator. *)
Lemma filepath_Ext_app_r a b :
  filepath_Ext b <> "" \/ has_separator b = true -> filepath_Ext (a ++ b) = filepath_Ext b.
Proof.
  intros Hb. induction a as [|c a IH]; [done|].
  change (String c a ++ b) with (String c (a ++ b)). simpl. rewrite IH.
  destruct (String.eqb_spec (filepath_Ext b) "") as [He|He]; simpl; [|done].
  destruct Hb as [Hb|Hb]; [done|].
  rewrite has_separator_app, Hb, orb_true_r, andb_false_r. simpl. congruence.
Qed.

Local Close Scope string_scope.

Lemma string_app_cons x a b : (String x a ++ b)%string = String x (a ++ b)%string.
Proof. reflexivity. Qed.
Lemma string_app_nil_l b : ("" ++ b)%string = b.
Proof. reflexivity. Qed.

Lemma utf8_first_lo b n lo hi : utf8_first b = Some (n, lo, hi) -> 0x80 <= lo.
Proof.
  unfold utf8_first, in_range.
  repeat match goal with |- context [if ?x then _ else _] => destruct x end;
    intros H; inversion H; lia.
Qed.
Lemma utf8_decode_String c0 s1 : utf8_decode (String c0 s1) =

      let b0 := byte_val c0 in
      if b0 <? 0x80 then b0 :: utf8_decode s1 else
      match utf8_first b0 with
      | None => RuneError :: utf8_decode s1
      | Some (n, lo, hi) =>
          match s1 with
          | EmptyString => RuneError :: utf8_decode s1
          | String c1 s2 =>
              let b1 := byte_val c1 in
              if negb (in_range lo hi b1) then RuneError :: utf8_decode s1
              else if (n =? 2)%nat then
                Z.lor (Z.shiftl (Z.land b0 0x1F) 6) (Z.land b1 0x3F) :: utf8_decode s2
              else
                match s2 with
                | EmptyString => RuneError :: utf8_decode s1
                | String c2 s3 =>
                    let b2 := byte_val c2 in
                    if negb (in_range 0x80 0xBF b2) then RuneError :: utf8_decode s1
                    else if (n =? 3)%nat then
                      Z.lor (Z.lor (Z.shiftl (Z.land b0 0x0F) 12) (Z.shiftl (Z.land b1 0x3F) 6))
                            (Z.land b2 0x3F) :: utf8_decode s3
                    else
                      match s3 with
                      | EmptyString => RuneError :: utf8_decode s1
                      | String c3 s4 =>
                          let b3 := byte_val c3 in
                          if negb (in_range 0x80 0xBF b3) then RuneError :: utf8_decode s1
                          else
                            Z.lor (Z.lor (Z.shiftl (Z.land b0 0x07) 18)
                                         (Z.shiftl (Z.land b1 0x3F) 12))
                                  (Z.lor (Z.shiftl (Z.land b2 0x3F) 6) (Z.land b3 0x3F))
                            :: utf8_decode s4
                      end
                end
          end
      end.
Proof. reflexivity. Qed.

Lemma utf8_decode_split_ascii a c b :
  byte_val c < 0x80 ->
  utf8_decode (a ++ String c b) = (utf8_decode a ++ utf8_decode (String c b))%list.
Proof.
  intros Hc. remember (String.length a) as m eqn:Hm.
  revert a Hm. induction m as [m IH] using lt_wf_ind. intros a Hm.
  assert (IH' : forall a0, (String.length a0 < m)%nat ->
            utf8_decode (a0 ++ String c b) = (utf8_decode a0 ++ utf8_decode (String c b))%list).
  { intros a0 H. exact (IH _ H a0 eq_refl). }
  clear IH.
  destruct a as [|c0 s1]; [reflexivity|].
  rewrite string_app_cons, (utf8_decode_String c0 (s1 ++ String c b)), (utf8_decode_String c0 s1).
  cbv beta zeta.
  repeat first
    [ match goal with
      | |- context [utf8_decode (?s ++ String c b)%string] =>
          is_var s; rewrite (IH' s) by (subst m; simpl; lia)
      end
    | match goal with
      | H : utf8_first _ = Some (_, ?lo, _), E : negb (in_range ?lo _ (byte_val c)) = false |- _ =>
          exfalso; apply utf8_first_lo in H; unfold in_range in E;
          apply negb_false_iff, andb_true_iff in E as [E _]; apply Z.leb_le in E; lia
      | E : negb (in_range 0x80 _ (byte_val c)) = false |- _ =>
          exfalso; unfold in_range in E;
          apply negb_false_iff, andb_true_iff in E as [E _]; apply Z.leb_le in E; lia
      end
    | match goal with
      | |- context [match (?s ++ String c b)%string with EmptyString => _ | String _ _ => _ end] =>
          is_var s; destruct s; rewrite ?string_app_cons, ?string_app_nil_l; cbv beta iota zeta
      end
    | match goal with
      | |- context [if ?x then _ else _] => destruct x eqn:?
      | |- context [match utf8_first ?x with _ => _ end] =>
          destruct (utf8_first x) as [[[? ?] ?]|] eqn:?
      end ].
  all: reflexivity.
Qed.

Lemma lor_ge_l a b : 0 <= a -> 0 <= b -> a <= Z.lor a b.
Proof.
  intros Ha Hb. apply (Z.ldiff_le a (Z.lor a b)); [apply Z.lor_nonneg; auto|].
  apply Z.bits_inj'. intros k _. rewrite Z.ldiff_spec, Z.lor_spec, Z.bits_0.
  destruct (Z.testbit a k), (Z.testbit b k); reflexivity.
Qed.

Lemma lor_ge_r a b : 0 <= a -> 0 <= b -> b <= Z.lor a b.
Proof. intros Ha Hb. rewrite Z.lor_comm. apply lor_ge_l; done. Qed.

Lemma byte_val_bound c : 0 <= byte_val c < 256.
Proof. unfold byte_val. pose proof (Ascii.N_ascii_bounded c). lia. Qed.

Lemma land_mask_bound x m : 0 <= x -> 0 <= m -> 0 <= Z.land x m.
Proof. intros. apply Z.land_nonneg. auto. Qed.

Lemma land_low x k : 0 <= k -> Z.land x (Z.ones k) = x mod 2 ^ k.
Proof. apply Z.land_ones. Qed.

(** A multi-byte sequence that decodes reads as a rune of at least [0x80]. *)
Lemma utf8_first_runes b0 b1 b2 b3 n lo hi :
  utf8_first b0 = Some (n, lo, hi) -> in_range lo hi b1 = true ->
  0 <= b1 -> 0 <= b2 -> 0 <= b3 ->
  ((n =? 2)%nat = true -> 0x80 <= Z.lor (Z.shiftl (Z.land b0 0x1F) 6) (Z.land b1 0x3F)) /\
  ((n =? 3)%nat = true ->
   0x80 <= Z.lor (Z.lor (Z.shiftl (Z.land b0 0x0F) 12) (Z.shiftl (Z.land b1 0x3F) 6))
                 (Z.land b2 0x3F)) /\
  ((n =? 2)%nat = false -> (n =? 3)%nat = false ->
   0x80 <= Z.lor (Z.lor (Z.shiftl (Z.land b0 0x07) 18) (Z.shiftl (Z.land b1 0x3F) 12))
                 (Z.lor (Z.shiftl (Z.land b2 0x3F) 6) (Z.land b3 0x3F))).
Proof.
  intros Hf Hr H1 H2 H3.
  change 0x1F with (Z.ones 5). change 0x0F with (Z.ones 4). change 0x07 with (Z.ones 3).
  change 0x3F with (Z.ones 6).
  assert (Hb0 : 0 <= b0).
  { unfold utf8_first, in_range in Hf.
    repeat match type of Hf with context [if ?x then _ else _] => destruct x eqn:? end;
      try discriminate; repeat match goal with H : _ && _ = true |- _ => apply andb_true_iff in H as [? ?] end;
      repeat match goal with H : (_ <=? _) = true |- _ => apply Z.leb_le in H end;
      repeat match goal with H : (_ =? _) = true |- _ => apply Z.eqb_eq in H end; lia. }
  rewrite !land_low by lia. rewrite !Z.shiftl_mul_pow2 by lia.
  repeat match goal with |- context [2 ^ ?k] =>
    let w := eval vm_compute in (2 ^ k) in change (2 ^ k) with w end.
  assert (Hm : forall x k, 0 <= k -> 0 <= x mod 2 ^ k) by (intros; apply Z.mod_pos_bound; apply Z.pow_pos_nonneg; lia).
  unfold utf8_first, in_range in Hf. unfold in_range in Hr.
  apply andb_true_iff in Hr as [Hr1 Hr2]. apply Z.leb_le in Hr1, Hr2.
  repeat match type of Hf with context [if ?x then _ else _] => destruct x eqn:? end;
    try discriminate; injection Hf as <- <- <-;
    repeat match goal with H : _ && _ = true |- _ => apply andb_true_iff in H as [? ?] end;
    repeat match goal with H : (_ <=? _) = true |- _ => apply Z.leb_le in H end;
    repeat match goal with H : (_ =? _) = true |- _ => apply Z.eqb_eq in H end;
    simpl; (split; [|split]); intros; try discriminate;
    repeat match goal with |- context [Z.lor ?a ?b] =>
      lazymatch a with context [Z.lor _ _] => fail | _ =>
      lazymatch b with context [Z.lor _ _] => fail | _ =>
        let H := fresh in
        assert (H : a <= Z.lor a b /\ b <= Z.lor a b /\ 0 <= Z.lor a b)
          by (split; [apply lor_ge_l|split; [apply lor_ge_r|apply Z.lor_nonneg]];
              repeat split; try apply Z.mul_nonneg_nonneg; try (apply Z.mod_pos_bound; lia); lia);
        let v := fresh "v" in set (v := Z.lor a b) in *; clearbody v
      end end end;
    subst; Z.div_mod_to_equations; lia.
Qed.

Lemma rune2_ge b0 b1 b2 b3 n lo hi :
  utf8_first b0 = Some (n, lo, hi) -> in_range lo hi b1 = true ->
  0 <= b1 -> 0 <= b2 -> 0 <= b3 -> (n =? 2)%nat = true ->
  0x80 <= Z.lor (Z.shiftl (Z.land b0 0x1F) 6) (Z.land b1 0x3F).
Proof. intros Hf Hr H1 H2 H3 Hn. exact (proj1 (utf8_first_runes b0 b1 b2 b3 n lo hi Hf Hr H1 H2 H3) Hn). Qed.

Lemma rune3_ge b0 b1 b2 b3 n lo hi :
  utf8_first b0 = Some (n, lo, hi) -> in_range lo hi b1 = true ->
  0 <= b1 -> 0 <= b2 -> 0 <= b3 -> (n =? 3)%nat = true ->
  0x80 <= Z.lor (Z.lor (Z.shiftl (Z.land b0 0x0F) 12) (Z.shiftl (Z.land b1 0x3F) 6))
                (Z.land b2 0x3F).
Proof. intros Hf Hr H1 H2 H3 Hn. exact (proj1 (proj2 (utf8_first_runes b0 b1 b2 b3 n lo hi Hf Hr H1 H2 H3)) Hn). Qed.

Lemma rune4_ge b0 b1 b2 b3 n lo hi :
  utf8_first b0 = Some (n, lo, hi) -> in_range lo hi b1 = true ->
  0 <= b1 -> 0 <= b2 -> 0 <= b3 -> (n =? 2)%nat = false -> (n =? 3)%nat = false ->
  0x80 <= Z.lor (Z.lor (Z.shiftl (Z.land b0 0x07) 18) (Z.shiftl (Z.land b1 0x3F) 12))
                (Z.lor (Z.shiftl (Z.land b2 0x3F) 6) (Z.land b3 0x3F)).
Proof. intros Hf Hr H1 H2 H3 Hn Hn'. exact (proj2 (proj2 (utf8_first_runes b0 b1 b2 b3 n lo hi Hf Hr H1 H2 H3)) Hn Hn'). Qed.

Lemma byte_val_inj c d : byte_val c = byte_val d -> c = d.
Proof.
  unfold byte_val. intros H. apply N2Z.inj in H.
  rewrite <- (Ascii.ascii_N_embedding c), <- (Ascii.ascii_N_embedding d), H. done.
Qed.

Lemma plain_elem_cons c s :
  plain_elem (String c s) = true <-> c <> "."%char /\ c <> "/"%char /\ plain_elem s = true.
Proof.
  simpl. rewrite !andb_true_iff, !negb_true_iff.
  destruct (Ascii.eqb_spec c "."), (Ascii.eqb_spec c "/"); intuition congruence.
Qed.

Lemma byte_val_nonneg c : 0 <= byte_val c.
Proof. apply byte_val_bound. Qed.

Lemma utf8_decode_plain y : plain_elem y = true -> Forall rune_plain (utf8_decode y).
Proof.
  remember (String.length y) as m eqn:Hm.
  revert y Hm. induction m as [m IH] using lt_wf_ind. intros y Hm Hp.
  assert (IH' : forall s, (String.length s < m)%nat -> plain_elem s = true ->
                Forall rune_plain (utf8_decode s)) by (intros s H; exact (IH _ H s eq_refl)).
  clear IH.
  destruct y as [|c0 s1]; [constructor|].
  assert (Hc0 : c0 <> "."%char /\ c0 <> "/"%char) by (apply plain_elem_cons in Hp; tauto).
  rewrite utf8_decode_String. cbv beta zeta.
  repeat first
    [ match goal with
      | |- context [if ?x then _ else _] => destruct x eqn:?
      | |- context [match utf8_first ?x with _ => _ end] =>
          destruct (utf8_first x) as [[[? ?] ?]|] eqn:?
      | |- context [match ?s with EmptyString => _ | String _ _ => _ end] =>
          is_var s; destruct s
      end ].
  all: repeat match goal with H : negb _ = false |- _ => apply negb_false_iff in H end.
  all: constructor;
    [ unfold rune_plain
    | apply IH'; [subst m; simpl; lia|];
      repeat first [ assumption | apply plain_elem_cons in Hp as (_ & _ & Hp) ] ].
  all: lazymatch goal with
       | |- _ <= RuneError \/ _ => left; unfold RuneError; lia
       | |- _ <= Z.lor (Z.shiftl (Z.land _ 0x1F) _) _ \/ _ =>
           left; eapply (rune2_ge _ _ 0 0); [eassumption|eassumption|apply byte_val_nonneg|lia|lia|eassumption]
       | |- _ <= Z.lor (Z.lor (Z.shiftl (Z.land _ 0x0F) _) _) _ \/ _ =>
           left; eapply (rune3_ge _ _ _ 0); [eassumption|eassumption|apply byte_val_nonneg|apply byte_val_nonneg|lia|eassumption]
       | |- _ <= Z.lor (Z.lor (Z.shiftl (Z.land _ 0x07) _) _) _ \/ _ =>
           left; eapply rune4_ge; [eassumption|eassumption|apply byte_val_nonneg|apply byte_val_nonneg|apply byte_val_nonneg|eassumption|eassumption]
       | |- _ =>
           right; pose proof (byte_val_bound c0); apply Z.ltb_lt in Heqb;
           split; [lia|]; destruct Hc0 as [Hd Hs]; split; intros He;
           [apply Hd | apply Hs]; apply byte_val_inj; rewrite He; reflexivity
       end.
Qed.

Lemma lower_ranges_above :
  forallb (fun '(lo, _, _, d) => 0x30 <=? lo + d) lower_ranges = true.
Proof. vm_compute. reflexivity. Qed.

Lemma lower_lookup_above t r :
  forallb (fun '(lo, _, _, d) => 0x30 <=? lo + d) t = true -> 0x30 <= r ->
  0x30 <= lower_lookup t r.
Proof.
  induction t as [|[[[lo hi] st] d] t IH]; intros Ht Hr; [done|].
  simpl in Ht. apply andb_true_iff in Ht as [Hd Ht]. apply Z.leb_le in Hd.
  simpl. destruct (in_range lo hi r) eqn:Hin; [|apply IH; done].
  unfold in_range in Hin. apply andb_true_iff in Hin as [Hlo _]. apply Z.leb_le in Hlo.
  destruct (_ =? 0); lia.
Qed.

Lemma unicode_ToLower_plain r : rune_plain r -> rune_plain (unicode_ToLower r).
Proof.
  unfold rune_plain, unicode_ToLower. intros Hr.
  destruct (Z.leb_spec r 0x7F).
  - unfold in_range. destruct (Z.leb_spec 65 r), (Z.leb_spec r 90); simpl; lia.
  - pose proof (lower_lookup_above lower_ranges r lower_ranges_above ltac:(lia)). lia.
Qed.

Lemma byte_chr_not_46_47 w : Z.testbit w 7 = true -> byte_chr w <> "."%char /\ byte_chr w <> "/"%char.
Proof.
  intros Hb. unfold byte_chr.
  assert (Hm : 0 <= w mod 256 < 256) by (apply Z.mod_pos_bound; lia).
  assert (Hbit : Z.testbit (w mod 256) 7 = true).
  { change 256 with (2 ^ 8). rewrite Z.mod_pow2_bits_low by lia. exact Hb. }
  split; intros He; apply (f_equal Ascii.N_of_ascii) in He;
    rewrite Ascii.N_ascii_embedding in He by lia;
    apply (f_equal Z.of_N) in He; rewrite Z2N.id in He by lia;
    rewrite He in Hbit; discriminate.
Qed.

Lemma byte_chr_lor_hi k x :
  Z.testbit k 7 = true -> byte_chr (Z.lor k x) <> "."%char /\ byte_chr (Z.lor k x) <> "/"%char.
Proof. intros Hk. apply byte_chr_not_46_47. rewrite Z.lor_spec, Hk. done. Qed.

Lemma utf8_encode_plain v : rune_plain v -> plain_elem (utf8_encode v) = true.
Proof.
  intros Hv. unfold utf8_encode.
  destruct ((0 <=? v) && (v <? 0x80)) eqn:H1.
  - apply andb_true_iff in H1 as [Ha Hb]. apply Z.leb_le in Ha. apply Z.ltb_lt in Hb.
    apply plain_elem_cons. split; [|split; [|done]]; intros He;
      apply (f_equal Ascii.N_of_ascii) in He; unfold byte_chr in He;
      rewrite Ascii.N_ascii_embedding in He by (pose proof (Z.mod_pos_bound v 256); lia);
      apply (f_equal Z.of_N) in He; rewrite Z2N.id in He by (pose proof (Z.mod_pos_bound v 256); lia);
      rewrite Z.mod_small in He by lia; unfold rune_plain in Hv; simpl in He; lia.
  - cbv zeta.
    repeat match goal with |- context [if ?x then _ else _] => destruct x end;
    repeat (apply plain_elem_cons; split; [apply byte_chr_lor_hi; reflexivity|
                                          split; [apply byte_chr_lor_hi; reflexivity|]]);
    reflexivity.
Qed.

Lemma plain_elem_app a b : plain_elem (a ++ b) = plain_elem a && plain_elem b.
Proof.
  induction a as [|c a IH]; [done|]. rewrite string_app_cons. simpl. rewrite IH.
  rewrite !andb_assoc. done.
Qed.

Lemma utf8_encode_all_app l1 l2 :
  utf8_encode_all (l1 ++ l2) = (utf8_encode_all l1 ++ utf8_encode_all l2)%string.
Proof.
  induction l1 as [|r l1 IH]; [done|]. simpl. rewrite IH.
  clear. generalize (utf8_encode r) as a. intros a.
  induction a as [|c a IHa]; [done|]. rewrite !string_app_cons, IHa. done.
Qed.

Lemma ToLower_plain y : plain_elem y = true -> plain_elem (strings_ToLower y) = true.
Proof.
  intros Hy. unfold strings_ToLower. pose proof (utf8_decode_plain y Hy) as Hf.
  induction (utf8_decode y) as [|r l IH]; [done|]. inversion Hf; subst.
  simpl. change (String.append ?a ?b) with (a ++ b)%string.
  rewrite plain_elem_app, utf8_encode_plain, IH by (try apply unicode_ToLower_plain; done). done.
Qed.

Lemma ToLower_split_ascii a c b :
  byte_val c < 0x80 ->
  strings_ToLower (a ++ String c b) = (strings_ToLower a ++ strings_ToLower (String c b))%string.
Proof.
  intros Hc. unfold strings_ToLower. rewrite utf8_decode_split_ascii, map_app, utf8_encode_all_app by done.
  done.
Qed.

Lemma ToLower_dot b : strings_ToLower (String "." b) = String "." (strings_ToLower b).
Proof. reflexivity. Qed.

Lemma ToLower_slash b : strings_ToLower (String "/" b) = String "/" (strings_ToLower b).
Proof. reflexivity. Qed.

Local Open Scope string_scope.

Lemma filepath_Ext_plain y : plain_elem y = true -> filepath_Ext y = "" /\ has_separator y = false.
Proof.
  induction y as [|c y IH]; [done|]. intros Hp. apply plain_elem_cons in Hp as (Hd & Hs & Hp).
  destruct (IH Hp) as [He Hsep]. simpl. rewrite He, Hsep. simpl.
  destruct (Ascii.eqb_spec c "."), (Ascii.eqb_spec c "/"); done.
Qed.

Lemma filepath_Ext_dot x y : plain_elem y = true -> filepath_Ext (x ++ String "." y) = String "." y.
Proof.
  intros Hp. destruct (filepath_Ext_plain y Hp) as [He Hs].
  assert (Hd : filepath_Ext (String "." y) = String "." y) by (simpl; rewrite He, Hs; done).
  rewrite filepath_Ext_app_r; [done|]. left. rewrite Hd. done.
Qed.

Lemma filepath_Ext_slash x y : plain_elem y = true -> filepath_Ext (x ++ String "/" y) = "".
Proof.
  intros Hp. destruct (filepath_Ext_plain y Hp) as [He Hs].
  rewrite filepath_Ext_app_r; [simpl; rewrite He; done|]. right. done.
Qed.

(** A path ends in a plain element, after nothing, a separator or a dot. *)
Lemma path_last_elem s :
  plain_elem s = true \/
  (exists pre r, s = pre ++ String "/" r /\ plain_elem r = true) \/
  (exists pre r, s = pre ++ String "." r /\ plain_elem r = true).
Proof.
  induction s as [|c t IH]; [left; done|].
  destruct IH as [Ht | [(pre & r & -> & Hr) | (pre & r & -> & Hr)]].
  - destruct (Ascii.eqb_spec c "."%char) as [->|Hd]; [right; right; exists "", t; done|].
    destruct (Ascii.eqb_spec c "/"%char) as [->|Hs]; [right; left; exists "", t; done|].
    left. apply plain_elem_cons. done.
  - right; left. exists (String c pre), r. done.
  - right; right. exists (String c pre), r. done.
Qed.

(** [filepath.Ext] commutes with [strings.ToLower]. *)
Lemma filepath_Ext_ToLower s : filepath_Ext (strings_ToLower s) = strings_ToLower (filepath_Ext s).
Proof.
  destruct (path_last_elem s) as [Hp | [(pre & r & -> & Hr) | (pre & r & -> & Hr)]].
  - rewrite (proj1 (filepath_Ext_plain s Hp)), (proj1 (filepath_Ext_plain _ (ToLower_plain s Hp))).
    reflexivity.
  - rewrite ToLower_split_ascii, ToLower_slash by reflexivity.
    rewrite !filepath_Ext_slash by (try apply ToLower_plain; done). reflexivity.
  - rewrite ToLower_split_ascii, ToLower_dot by reflexivity.
    rewrite !filepath_Ext_dot by (try apply ToLower_plain; done). rewrite ToLower_dot. reflexivity.
Qed.

(** No extension on either side, and no separator in [b]: none on
    [a ++ b]. *)
Lemma filepath_Ext_app_none a b :
  filepath_Ext a = "" -> has_separator b = false -> filepath_Ext b = "" ->
  filepath_Ext (a ++ b) = "".
Proof.
  intros Ha Hs Hb. induction a as [|c a IH]; [done|].
  change (String c a ++ b) with (String c (a ++ b)).
  simpl in Ha |- *.
  destruct (String.eqb_spec (filepath_Ext a) "") as [Ha'|Ha']; simpl in Ha; [|done].
  rewrite (IH Ha'). simpl. rewrite has_separator_app, Hs, orb_false_r.
  destruct (Ascii.eqb c "." && negb (has_separator a)); done.
Qed.

Lemma filepath_Ext_shape s :
  filepath_Ext s = "" \/
  exists r, filepath_Ext s = String "." r /\ has_separator r = false /\ filepath_Ext r = "".
Proof.
  induction s as [|c s IH]; [left; done|]. simpl.
  destruct (String.eqb_spec (filepath_Ext s) "") as [He|He]; simpl; [|exact IH].
  destruct (Ascii.eqb_spec c "."%char) as [->|Hc]; simpl; [|left; done].
  destruct (has_separator s) eqn:Hs; simpl; [left; done|].
  right. exists s. done.
Qed.

Lemma filepath_Ext_idem s : filepath_Ext (filepath_Ext s) = filepath_Ext s.
Proof.
  destruct (filepath_Ext_shape s) as [-> | (r & -> & Hs & Hr)]; [done|].
  simpl. rewrite Hr, Hs. done.
Qed.

Lemma string_app_nil_r s : s ++ "" = s.
Proof.
  induction s as [|c s IH]; [done|].
  change (String c (s ++ "") = String c s). rewrite IH. done.
Qed.

(** [filepath.Ext] returns a suffix of its argument. *)
Lemma filepath_Ext_suffix s : exists pre, s = pre ++ filepath_Ext s.
Proof.
  induction s as [|c s [pre IH]]; [exists ""; done|]. simpl.
  destruct (String.eqb_spec (filepath_Ext s) "") as [He|He]; simpl.
  - destruct (Ascii.eqb c "." && negb (has_separator s)).
    + exists "". done.
    + exists (String c s). rewrite string_app_nil_r. done.
  - exists (String c pre). change (String c s = String c (pre ++ filepath_Ext s)).
    rewrite <- IH. done.
Qed.

Lemma string_length_app a b : String.length (a ++ b) = (String.length a + String.length b)%nat.
Proof.
  induction a as [|c a IH]; [done|].
  change (String c a ++ b) with (String c (a ++ b)). simpl. rewrite IH. done.
Qed.

Lemma substring_all s : String.substring 0 (String.length s) s = s.
Proof. induction s as [|c s IH]; [done|]. simpl. rewrite IH. done. Qed.

Lemma substring_app_r a b m : String.substring (String.length a) m (a ++ b) = String.substring 0 m b.
Proof.
  induction a as [|c a IH]; [done|].
  change (String c a ++ b) with (String c (a ++ b)). simpl. exact IH.
Qed.

Lemma substring_app_l a b : String.substring 0 (String.length a) (a ++ b) = a.
Proof.
  induction a as [|c a IH]; [destruct b; reflexivity|].
  change (String c a ++ b) with (String c (a ++ b)). simpl. rewrite IH. done.
Qed.

Lemma strings_TrimSuffix_app pre e : strings_TrimSuffix (pre ++ e) e = pre.
Proof.
  unfold strings_TrimSuffix, strings_HasSuffix. rewrite string_length_app.
  replace (String.length pre + String.length e - String.length e)%nat
    with (String.length pre) by lia.
  rewrite substring_app_r, substring_all, String.eqb_refl.
  destruct (Nat.leb_spec (String.length e) (String.length pre + String.length e)); [|lia].
  simpl. apply substring_app_l.
Qed.

Lemma filepath_Ext_under d s : filepath_Ext (d ++ "/" ++ s) = filepath_Ext s.
Proof.
  rewrite filepath_Ext_app_r.
  - change ("/" ++ s) with (String "/" s). simpl.
    destruct (String.eqb_spec (filepath_Ext s) ""); simpl; congruence.
  - right. done.
Qed.

Lemma render_relative segs : segs <> [] -> render false segs = join_slash segs.
Proof. destruct segs; done. Qed.

(** A name joined under a directory keeps its extension. *)
Lemma filepath_Ext_Join_name d s :
  name_ok s = true -> filepath_Ext (filepath_Join d s) = filepath_Ext s.
Proof.
  intros Hs. change s with (join_slash [s]) at 1.
  rewrite Join_names by (try constructor; done).
  destruct (clean_parts d) as [r segs]. simpl.
  destruct segs as [|x segs].
  - destruct r; [|reflexivity].
    change (render true ([] ++ [s])%list) with ("" ++ "/" ++ s). apply filepath_Ext_under.
  - destruct r.
    + unfold render. rewrite join_slash_snoc by done. rewrite <- string_app_assoc.
      apply filepath_Ext_under.
    + rewrite render_relative by (destruct segs; done).
      rewrite join_slash_snoc by done. apply filepath_Ext_under.
Qed.

(** [detectFormatFromPath] and the CLI's [detectFormat] do not depend on
    letter case: two paths equal up to [strings.ToLower] get the same
    answer, format or error. *)
Theorem detection_case_insensitive (p q : string) :
  strings_ToLower p = strings_ToLower q ->
  detectFormatFromPath p = detectFormatFromPath q /\ detectFormat p = detectFormat q.
Proof.
  intros H. split.
  - unfold detectFormatFromPath. rewrite <- !filepath_Ext_ToLower, H. done.
  - unfold detectFormat. rewrite <- !filepath_Ext_ToLower, H. done.
Qed.

Lemma detection_case_insensitive_witness :
  strings_ToLower "Shots/IMG_01.JPEG" = strings_ToLower "shots/img_01.jpeg" /\
  detectFormatFromPath "Shots/IMG_01.JPEG" = detectFormatFromPath "shots/img_01.jpeg" /\
  detectFormat "Shots/IMG_01.JPEG" = detectFormat "shots/img_01.jpeg".
Proof.
  split; [vm_compute; reflexivity|].
  apply (detection_case_insensitive "Shots/IMG_01.JPEG" "shots/img_01.jpeg").
  vm_compute. reflexivity.
Defined.

(** Only the last path element counts for detection: any path [s] placed
    after a directory [d] and a separator, and a file name [s] joined
    under [d] by [filepath.Join] (as [ScanDirectory]'s walk does, even for
    a directory name with a dot), is detected as [s] alone. *)
Theorem detection_ignores_directory (d s : string) :
  detectFormatFromPath (d ++ "/" ++ s) = detectFormatFromPath s /\
  detectFormat (d ++ "/" ++ s) = detectFormat s /\
  (name_ok s = true ->
   detectFormatFromPath (filepath_Join d s) = detectFormatFromPath s /\
   detectFormat (filepath_Join d s) = detectFormat s).
Proof.
  unfold detectFormatFromPath, detectFormat. rewrite filepath_Ext_under.
  split; [done|]. split; [done|]. intros Hs. rewrite filepath_Ext_Join_name by done. done.
Qed.

(** [parseCompressionLevel] inverts [CompressionLevel.String] on the three
    valid levels, and whatever it accepts is a valid level whose name is
    the lower-cased input. *)
Theorem parseCompressionLevel_String :
  (forall c : Z, CompressionLevel_IsValid c = true ->
     parseCompressionLevel (CompressionLevel_String c) = (c, None)) /\
  (forall (s : string) (c : Z), parseCompressionLevel s = (c, None) ->
     CompressionLevel_IsValid c = true /\ strings_ToLower s = CompressionLevel_String c).
Proof.
  split.
  - intros c. unfold CompressionLevel_IsValid, CompressionLevel_String,
      CompressionLow, CompressionMedium, CompressionHigh.
    destruct (Z.eqb_spec c 0) as [->|]; [done|].
    destruct (Z.eqb_spec c 1) as [->|]; [done|].
    destruct (Z.eqb_spec c 2) as [->|]; done.
  - intros s c. unfold parseCompressionLevel.
    destruct (String.eqb_spec (strings_ToLower s) "low") as [Hl|];
      [intros [= <-]; rewrite Hl; done|].
    destruct (String.eqb_spec (strings_ToLower s) "medium") as [Hl|];
      [intros [= <-]; rewrite Hl; done|].
    destruct (String.eqb_spec (strings_ToLower s) "high") as [Hl|];
      [intros [= <-]; rewrite Hl; done|].
    done.
Qed.

(** The names and extensions of the valid formats are understood by the
    CLI: [parseImageFormat] inverts [ImageFormat.String], and any path
    ending in [ImageFormat.Extension] (the paths [defaultConvertOutputPath]
    builds among them) is detected as that format by [detectFormat] and
    [detectFormatFromPath]; when the input was detected as another
    format, the convert output path differs from the input path. *)
Theorem defaultConvertOutputPath_format (f : Z) (base p : string) :
  ImageFormat_IsValid f = true ->
  parseImageFormat (ImageFormat_String f) = (f, None) /\
  detectFormat (base ++ ImageFormat_Extension f) = (f, None) /\
  detectFormatFromPath (base ++ ImageFormat_Extension f) = (f, None) /\
  detectFormat (defaultConvertOutputPath p f) = (f, None) /\
  detectFormatFromPath (defaultConvertOutputPath p f) = (f, None) /\
  (detectFormat p <> (f, None) -> defaultConvertOutputPath p f <> p).
Proof.
  intros Hv.
  assert (Hext : forall b, filepath_Ext (b ++ ImageFormat_Extension f) = ImageFormat_Extension f).
  { intros b. rewrite filepath_Ext_app_r.
    - unfold ImageFormat_IsValid in Hv. unfold ImageFormat_Extension.
      destruct (Z.eqb f FormatJPEG); [done|]. destruct (Z.eqb f FormatPNG); done.
    - left. unfold ImageFormat_IsValid in Hv. unfold ImageFormat_Extension.
      destruct (Z.eqb f FormatJPEG); [done|]. destruct (Z.eqb f FormatPNG); done. }
  assert (Hd : forall b, detectFormat (b ++ ImageFormat_Extension f) = (f, None) /\
                         detectFormatFromPath (b ++ ImageFormat_Extension f) = (f, None)).
  { intros b. unfold detectFormat, detectFormatFromPath. rewrite Hext.
    unfold ImageFormat_IsValid, ImageFormat_Extension, FormatJPEG, FormatPNG in *.
    destruct (Z.eqb_spec f 0) as [->|]; [done|].
    destruct (Z.eqb_spec f 1) as [->|]; done. }
  unfold defaultConvertOutputPath.
  destruct (Hd base) as [Hd1 Hd2].
  destruct (Hd (strings_TrimSuffix p (filepath_Ext p))) as [Hd3 Hd4].
  split; [|split; [done|split; [done|split; [done|split; [done|]]]]].
  - unfold ImageFormat_IsValid, ImageFormat_String, parseImageFormat, FormatJPEG, FormatPNG in *.
    destruct (Z.eqb_spec f 0) as [->|]; [done|].
    destruct (Z.eqb_spec f 1) as [->|]; done.
  - intros Hne Heq. apply Hne. rewrite <- Heq at 1. exact Hd3.
Qed.

Lemma defaultConvertOutputPath_format_witness :
  ImageFormat_IsValid FormatPNG = true /\
  parseImageFormat (ImageFormat_String FormatPNG) = (FormatPNG, None) /\
  detectFormat ("out/a" ++ ImageFormat_Extension FormatPNG) = (FormatPNG, None) /\
  detectFormatFromPath ("out/a" ++ ImageFormat_Extension FormatPNG) = (FormatPNG, None) /\
  detectFormat (defaultConvertOutputPath "in/photo.JPG" FormatPNG) = (FormatPNG, None) /\
  detectFormatFromPath (defaultConvertOutputPath "in/photo.JPG" FormatPNG) = (FormatPNG, None) /\
  (detectFormat "in/photo.JPG" <> (FormatPNG, None) ->
   defaultConvertOutputPath "in/photo.JPG" FormatPNG <> "in/photo.JPG").
Proof.
  split; [reflexivity|].
  apply (defaultConvertOutputPath_format FormatPNG "out/a" "in/photo.JPG"). reflexivity.
Defined.

(** [defaultOutputPath] keeps the extension, hence the detected format
    (for [detectFormat] and [detectFormatFromPath]), and never returns its
    input: the compressed copy never overwrites the source. *)
Theorem defaultOutputPath_keeps_format (p : string) :
  filepath_Ext (defaultOutputPath p) = filepath_Ext p /\
  detectFormat (defaultOutputPath p) = detectFormat p /\
  detectFormatFromPath (defaultOutputPath p) = detectFormatFromPath p /\
  defaultOutputPath p <> p.
Proof.
  destruct (filepath_Ext_suffix p) as [pre Hp].
  assert (Hout : defaultOutputPath p = pre ++ "_compressed" ++ filepath_Ext p).
  { unfold defaultOutputPath. remember (filepath_Ext p) as e eqn:He.
    rewrite Hp at 1. rewrite strings_TrimSuffix_app. done. }
  assert (HE : filepath_Ext (defaultOutputPath p) = filepath_Ext p).
  { rewrite Hout. destruct (filepath_Ext_shape p) as [He | (r & He & Hs & Hr)].
    - rewrite He. rewrite string_app_nil_r.
      rewrite He, string_app_nil_r in Hp.
      apply filepath_Ext_app_none; [congruence|done|done].
    - rewrite <- string_app_assoc, filepath_Ext_app_r; rewrite He.
      + simpl. rewrite Hr, Hs. done.
      + left. simpl. rewrite Hr, Hs. done. }
  split; [exact HE|]. split; [|split].
  - unfold detectFormat. rewrite HE. done.
  - unfold detectFormatFromPath. rewrite HE. done.
  - intros Heq. assert (Hl : String.length (defaultOutputPath p) = String.length p) by congruence.
    rewrite Hout, !string_length_app in Hl.
    rewrite Hp in Hl at 2. rewrite string_length_app in Hl. simpl in Hl. lia.
Qed.
Local Close Scope string_scope.

(* ================================================================== *)
(** * The bounded reader and the codecs' outcomes *)

Lemma io_Write_ok wr p n w s' :
  io_Write wr p (n, w) = (inl None, s') -> s' = (n, w ++ p).
Proof.
  unfold io_Write. destruct (wr_cap wr) as [cap|]; simpl; intros H.
  - destruct (Nat.ltb_spec (length (take (cap - length w) p)) (length p)) as [Hlt|Hge];
      [discriminate|].
    injection H as <-. rewrite length_take in Hge. rewrite take_ge by lia. done.
  - rewrite Nat.ltb_irrefl in H. congruence.
Qed.

Lemma readAllWithLimit_ok r m n w data s' :
  readAllWithLimit r m (n, w) = (inl (data, None), s') ->
  data = rd_data r /\ rd_err r = None /\ s' = (n + length (rd_data r), w)%nat.
Proof.
  unfold readAllWithLimit.
  destruct (Z.leb_spec m 0).
  { unfold io_ReadAll. intros [= -> -> <-]. done. }
  destruct (Z.eqb_spec m MaxInt64).
  { unfold io_ReadAll. intros [= -> -> <-]. done. }
  unfold cm_bind, io_ReadAll, LimitReader. simpl.
  destruct (Nat.ltb_spec (length (rd_data r)) (Z.to_nat (m + 1))) as [Hlt|Hge].
  - rewrite take_ge by lia.
    destruct (rd_err r) as [e|]; [unfold cm_ret; intros [=]|].
    destruct (Z.gtb_spec (Z.of_nat (length (rd_data r))) m); unfold cm_ret; [intros [=]|].
    intros [= -> <-]. done.
  - unfold cm_ret. rewrite length_take, Nat.min_l by lia.
    destruct (Z.gtb_spec (Z.of_nat (Z.to_nat (m + 1))) m); [intros [=]|lia].
Qed.

Lemma readAllWithLimit_full r m n w :
  (m <= 0 \/ m = MaxInt64 \/ Z.of_nat (length (rd_data r)) <= m) -> rd_err r = None ->
  readAllWithLimit r m (n, w) = (inl (rd_data r, None), (n + length (rd_data r), w)%nat).
Proof.
  intros Hm He. unfold readAllWithLimit.
  destruct (Z.leb_spec m 0); [unfold io_ReadAll; rewrite He; done|].
  destruct (Z.eqb_spec m MaxInt64); [unfold io_ReadAll; rewrite He; done|].
  unfold cm_bind, io_ReadAll, LimitReader. simpl.
  destruct (Nat.ltb_spec (length (rd_data r)) (Z.to_nat (m + 1))) as [Hlt|Hge]; [|lia].
  rewrite take_ge by lia. rewrite He.
  destruct (Z.gtb_spec (Z.of_nat (length (rd_data r))) m); [lia|]. done.
Qed.

(** [readAllWithLimit] returns the whole input, and counts all of it as
    read, when no limit applies ([maxSize <= 0] or [math.MaxInt64]; the
    reader's error, if any, comes with the data) and when the input fits
    the limit and reads without error. *)
Theorem readAllWithLimit_within (r : Reader) (maxSize : Z) (n : nat) (w : list byte) :
  (maxSize <= 0 \/ maxSize = MaxInt64 ->
   readAllWithLimit r maxSize (n, w) = (inl (rd_data r, rd_err r), (n + length (rd_data r), w)%nat)) /\
  (Z.of_nat (length (rd_data r)) <= maxSize -> rd_err r = None ->
   readAllWithLimit r maxSize (n, w) = (inl (rd_data r, None), (n + length (rd_data r), w)%nat)).
Proof.
  split.
  - intros Hm. unfold readAllWithLimit.
    destruct (Z.leb_spec maxSize 0); [done|].
    destruct (Z.eqb_spec maxSize MaxInt64); [done|]. lia.
  - intros Hle He. unfold readAllWithLimit.
    destruct (Z.leb_spec maxSize 0); [unfold io_ReadAll; rewrite He; done|].
    destruct (Z.eqb_spec maxSize MaxInt64); [unfold io_ReadAll; rewrite He; done|].
    unfold cm_bind, io_ReadAll, LimitReader. simpl.
    destruct (Nat.ltb_spec (length (rd_data r)) (Z.to_nat (maxSize + 1))) as [Hlt|Hge]; [|lia].
    rewrite take_ge by lia. rewrite He.
    destruct (Z.gtb_spec (Z.of_nat (length (rd_data r))) maxSize); [lia|]. done.
Qed.

(** Under a limit [0 < maxSize < MaxInt64], a read error on an input that
    fits is returned with no data; an input over the limit gives
    [ErrFileTooLarge] after [maxSize + 1] bytes, whatever error the reader
    would have met further on. *)
Theorem readAllWithLimit_limited (r : Reader) (maxSize : Z) (n : nat) (w : list byte) :
  0 < maxSize < MaxInt64 ->
  (forall e, Z.of_nat (length (rd_data r)) <= maxSize -> rd_err r = Some e ->
   readAllWithLimit r maxSize (n, w) = (inl ([], Some e), (n + length (rd_data r), w)%nat)) /\
  (maxSize < Z.of_nat (length (rd_data r)) ->
   readAllWithLimit r maxSize (n, w) =
     (inl ([], Some ErrFileTooLarge), (n + Z.to_nat (maxSize + 1), w)%nat)).
Proof.
  intros Hm. unfold readAllWithLimit.
  destruct (Z.leb_spec maxSize 0); [lia|].
  destruct (Z.eqb_spec maxSize MaxInt64); [lia|].
  unfold cm_bind, io_ReadAll, LimitReader. simpl. split.
  - intros e Hle He.
    destruct (Nat.ltb_spec (length (rd_data r)) (Z.to_nat (maxSize + 1))) as [Hlt|Hge]; [|lia].
    rewrite take_ge by lia. rewrite He. done.
  - intros Hgt.
    destruct (Nat.ltb_spec (length (rd_data r)) (Z.to_nat (maxSize + 1))) as [Hlt|Hge]; [lia|].
    rewrite length_take, Nat.min_l by lia.
    destruct (Z.gtb_spec (Z.of_nat (Z.to_nat (maxSize + 1))) maxSize); [done|lia].
Qed.

Lemma readAllWithLimit_limited_witness :
  0 < 2 < MaxInt64 /\
  (forall e, Z.of_nat (length (rd_data ex_reader)) <= 2 -> rd_err ex_reader = Some e ->
   readAllWithLimit ex_reader 2 (0%nat, []) =
     (inl ([], Some e), (0 + length (rd_data ex_reader), [])%nat)) /\
  (2 < Z.of_nat (length (rd_data ex_reader)) ->
   readAllWithLimit ex_reader 2 (0%nat, []) =
     (inl ([], Some ErrFileTooLarge), (0 + Z.to_nat (2 + 1), [])%nat)).
Proof.
  split; [unfold MaxInt64; lia|].
  apply (readAllWithLimit_limited ex_reader 2 0 []). unfold MaxInt64. lia.
Defined.

Section CodecOutcomes.

Variable Image : Type.
Variable image_Decode : list byte -> option Image.
Variable jpeg_Encode : Image -> Z -> list byte * option GoErr.
Variable png_Encode : Image -> PNGCompressionLevel -> list byte * option GoErr.
Variable webp_Encode : Image -> Z -> list byte * option GoErr.

Lemma jpeg_body_ok ctx r w opts :
  co_err (run_codec (jpeg_encode_body Image image_Decode jpeg_Encode ctx r w opts)) = None ->
  co_result (run_codec (jpeg_encode_body Image image_Decode jpeg_Encode ctx r w opts)) =
    Some {| OriginalSize := Z.of_nat (length (rd_data r));
            CompressedSize := Z.of_nat (length (co_written
              (run_codec (jpeg_encode_body Image image_Decode jpeg_Encode ctx r w opts))));
            ResultFormat := FormatJPEG |} /\
  co_read (run_codec (jpeg_encode_body Image image_Decode jpeg_Encode ctx r w opts)) =
    length (rd_data r) /\
  rd_err r = None.
Proof.
  unfold run_codec, jpeg_encode_body, cm_bind, cm_check, io_ReadAll, wrap, cm_throw, cm_ret.
  destruct (checkContext ctx); cbn -[io_Write]; [done|].
  destruct (rd_err r); cbn -[io_Write]; [done|].
  destruct (image_Decode (rd_data r)); cbn -[io_Write]; [|done].
  destruct (jpeg_Encode i (jpeg_quality opts)) as [buf [e|]]; cbn -[io_Write]; [done|].
  destruct (io_Write w buf (length (rd_data r), [])) as [[[e|]|e] [n' w']] eqn:Hw;
    simpl; try done.
  apply io_Write_ok in Hw. injection Hw as -> ->. simpl. done.
Qed.

Lemma stream_body_ok enc msg fm ctx r w opts :
  co_err (run_codec (stream_body Image image_Decode enc msg fm ctx r w opts)) = None ->
  co_result (run_codec (stream_body Image image_Decode enc msg fm ctx r w opts)) =
    Some {| OriginalSize := Z.of_nat (length (rd_data r));
            CompressedSize := Z.of_nat (length (co_written
              (run_codec (stream_body Image image_Decode enc msg fm ctx r w opts))));
            ResultFormat := fm |} /\
  co_read (run_codec (stream_body Image image_Decode enc msg fm ctx r w opts)) =
    length (rd_data r) /\
  rd_err r = None.
Proof.
  unfold run_codec, stream_body, cm_bind, cm_check, wrap, cm_throw, cm_ret.
  destruct (Validate opts); cbn -[io_Write readAllWithLimit]; [done|].
  destruct (checkContext ctx); cbn -[io_Write readAllWithLimit]; [done|].
  destruct (readAllWithLimit r (MaxFileSize opts) (0%nat, [])) as [[[data [e|]]|e] [n w0]] eqn:Hr;
    cbn -[io_Write]; try done.
  apply readAllWithLimit_ok in Hr as (-> & Herr & Hs). injection Hs as -> ->.
  destruct (image_Decode (rd_data r)); cbn -[io_Write]; [|done].
  destruct (enc i) as [bytes eerr].
  destruct (io_Write w bytes (length (rd_data r), [])) as [[[e|]|e] [n' w']] eqn:Hw;
    cbn -[io_Write]; try done.
  apply io_Write_ok in Hw. injection Hw as -> ->.
  destruct eerr; simpl; done.
Qed.

(** A successful codec call (any codec, [Compress] or [Convert]) read its
    whole input without error, and its [Result] reports that input's
    length as [OriginalSize], the number of bytes actually written to the
    destination as [CompressedSize], and the codec's own format. *)
Theorem codecs_report_sizes :
  (forall ctx r w o, let co := JPEG_Compress Image image_Decode jpeg_Encode ctx r w o in
   co_err co = None ->
   co_result co = Some {| OriginalSize := Z.of_nat (length (rd_data r));
                          CompressedSize := Z.of_nat (length (co_written co));
                          ResultFormat := FormatJPEG |} /\
   co_read co = length (rd_data r) /\ rd_err r = None) /\
  (forall ctx r w o, let co := JPEG_Convert Image image_Decode jpeg_Encode ctx r w o in
   co_err co = None ->
   co_result co = Some {| OriginalSize := Z.of_nat (length (rd_data r));
                          CompressedSize := Z.of_nat (length (co_written co));
                          ResultFormat := FormatJPEG |} /\
   co_read co = length (rd_data r) /\ rd_err r = None) /\
  (forall ctx r w o, let co := PNG_Compress Image image_Decode png_Encode ctx r w o in
   co_err co = None ->
   co_result co = Some {| OriginalSize := Z.of_nat (length (rd_data r));
                          CompressedSize := Z.of_nat (length (co_written co));
                          ResultFormat := FormatPNG |} /\
   co_read co = length (rd_data r) /\ rd_err r = None) /\
  (forall ctx r w o, let co := PNG_Convert Image image_Decode png_Encode ctx r w o in
   co_err co = None ->
   co_result co = Some {| OriginalSize := Z.of_nat (length (rd_data r));
                          CompressedSize := Z.of_nat (length (co_written co));
                          ResultFormat := FormatPNG |} /\
   co_read co = length (rd_data r) /\ rd_err r = None) /\
  (forall ctx r w o, let co := WEBP_Compress Image image_Decode webp_Encode ctx r w o in
   co_err co = None ->
   co_result co = Some {| OriginalSize := Z.of_nat (length (rd_data r));
                          CompressedSize := Z.of_nat (length (co_written co));
                          ResultFormat := FormatWEBP |} /\
   co_read co = length (rd_data r) /\ rd_err r = None) /\
  (forall ctx r w o, let co := WEBP_Convert Image image_Decode webp_Encode ctx r w o in
   co_err co = None ->
   co_result co = Some {| OriginalSize := Z.of_nat (length (rd_data r));
                          CompressedSize := Z.of_nat (length (co_written co));
                          ResultFormat := FormatWEBP |} /\
   co_read co = length (rd_data r) /\ rd_err r = None).
Proof.
  split; [|split; [|split; [|split; [|split]]]]; intros ctx r w o co; subst co.
  - apply jpeg_body_ok.
  - apply jpeg_body_ok.
  - apply stream_body_ok.
  - unfold PNG_Convert. destruct (negb (Format o =? FormatPNG)); [done|].
    apply stream_body_ok.
  - apply stream_body_ok.
  - unfold WEBP_Convert. destruct (negb (Format o =? FormatWEBP)); [done|].
    apply stream_body_ok.
Qed.

(** Under a cancelled context (or one past its deadline) no codec reads or
    writes a byte: JPEG returns the context's error, PNG and WebP return
    the options' validation error if any, else the context's. *)
Theorem codecs_cancelled (ctx : CtxState) (e : GoErr) (r : Reader) (w : Writer)
    (o : CompressOptions) :
  checkContext ctx = Some e ->
  JPEG_Compress Image image_Decode jpeg_Encode ctx r w o =
    {| co_result := None; co_err := Some e; co_read := 0; co_written := [] |} /\
  PNG_Compress Image image_Decode png_Encode ctx r w o =
    {| co_result := None; co_err := Some (default e (Validate o)); co_read := 0; co_written := [] |} /\
  WEBP_Compress Image image_Decode webp_Encode ctx r w o =
    {| co_result := None; co_err := Some (default e (Validate o)); co_read := 0; co_written := [] |}.
Proof.
  intros Hc.
  unfold JPEG_Compress, PNG_Compress, WEBP_Compress, run_codec, jpeg_encode_body, stream_body,
    cm_bind, cm_check.
  rewrite Hc. destruct (Validate o); done.
Qed.

(** With a live context and a readable input (within the limit, for PNG
    and WebP with valid options) that the decoder rejects, every codec
    fails with the wrapped decode error after reading the whole input,
    and writes nothing. *)
Theorem codecs_decode_failure (ctx : CtxState) (r : Reader) (w : Writer) (o : CompressOptions) :
  checkContext ctx = None -> rd_err r = None -> image_Decode (rd_data r) = None ->
  JPEG_Compress Image image_Decode jpeg_Encode ctx r w o =
    {| co_result := None; co_err := Some (ErrWrap "failed to decode image" ErrDecode);
       co_read := length (rd_data r); co_written := [] |} /\
  (Validate o = None ->
   MaxFileSize o = 0 \/ Z.of_nat (length (rd_data r)) <= MaxFileSize o ->
   PNG_Compress Image image_Decode png_Encode ctx r w o =
     {| co_result := None; co_err := Some (ErrWrap "failed to decode image" ErrDecode);
        co_read := length (rd_data r); co_written := [] |} /\
   WEBP_Compress Image image_Decode webp_Encode ctx r w o =
     {| co_result := None; co_err := Some (ErrWrap "failed to decode image" ErrDecode);
        co_read := length (rd_data r); co_written := [] |}).
Proof.
  intros Hc He Hd. split.
  - unfold JPEG_Compress, run_codec, jpeg_encode_body, cm_bind, cm_check, io_ReadAll, wrap.
    rewrite Hc. simpl. rewrite He. simpl. rewrite Hd. done.
  - intros Hv Hm.
    assert (Hr : readAllWithLimit r (MaxFileSize o) (0%nat, []) =
                 (inl (rd_data r, None), (0 + length (rd_data r), [])%nat)).
    { apply readAllWithLimit_full; [|done]. destruct Hm as [-> | Hm]; [left; lia|right; right; done]. }
    unfold PNG_Compress, WEBP_Compress, run_codec, stream_body, cm_bind, cm_check.
    rewrite Hv, Hc. cbn -[readAllWithLimit]. rewrite Hr. simpl. rewrite Hd. done.
Qed.

End CodecOutcomes.

Lemma codecs_cancelled_witness :
  checkContext CtxCanceled = Some ErrCanceled /\
  JPEG_Compress (list byte) ex_decode ex_jpeg_encode CtxCanceled ex_reader ex_writer
      DefaultCompressOptions =
    {| co_result := None; co_err := Some ErrCanceled; co_read := 0; co_written := [] |} /\
  PNG_Compress (list byte) ex_decode ex_png_encode CtxCanceled ex_reader ex_writer
      DefaultCompressOptions =
    {| co_result := None; co_err := Some (default ErrCanceled (Validate DefaultCompressOptions));
       co_read := 0; co_written := [] |} /\
  WEBP_Compress (list byte) ex_decode ex_jpeg_encode CtxCanceled ex_reader ex_writer
      DefaultCompressOptions =
    {| co_result := None; co_err := Some (default ErrCanceled (Validate DefaultCompressOptions));
       co_read := 0; co_written := [] |}.
Proof.
  split; [reflexivity|].
  apply (codecs_cancelled (list byte) ex_decode ex_jpeg_encode ex_png_encode ex_jpeg_encode
           CtxCanceled ErrCanceled ex_reader ex_writer DefaultCompressOptions).
  reflexivity.
Defined.

Lemma codecs_decode_failure_witness :
  checkContext CtxActive = None /\ rd_err ex_reader = None /\
  ex_bad_decode (rd_data ex_reader) = None /\
  JPEG_Compress (list byte) ex_bad_decode ex_jpeg_encode CtxActive ex_reader ex_writer
      DefaultCompressOptions =
    {| co_result := None; co_err := Some (ErrWrap "failed to decode image" ErrDecode);
       co_read := length (rd_data ex_reader); co_written := [] |} /\
  (Validate DefaultCompressOptions = None ->
   MaxFileSize DefaultCompressOptions = 0 \/
   Z.of_nat (length (rd_data ex_reader)) <= MaxFileSize DefaultCompressOptions ->
   PNG_Compress (list byte) ex_bad_decode ex_png_encode CtxActive ex_reader ex_writer
       DefaultCompressOptions =
     {| co_result := None; co_err := Some (ErrWrap "failed to decode image" ErrDecode);
        co_read := length (rd_data ex_reader); co_written := [] |} /\
   WEBP_Compress (list byte) ex_bad_decode ex_jpeg_encode CtxActive ex_reader ex_writer
       DefaultCompressOptions =
     {| co_result := None; co_err := Some (ErrWrap "failed to decode image" ErrDecode);
        co_read := length (rd_data ex_reader); co_written := [] |}).
Proof.
  split; [reflexivity|]. split; [reflexivity|]. split; [reflexivity|].
  apply (codecs_decode_failure (list byte) ex_bad_decode ex_jpeg_encode ex_png_encode
           ex_jpeg_encode CtxActive ex_reader ex_writer DefaultCompressOptions);
    reflexivity.
Defined.

(* ------------------------------------------------------------------ *)
(** ** The batch engine: file footprint, progress reports and outcomes *)

Section EngineExtras.

Variable os_open_ok : string -> bool.
Variable os_read_err : string -> option GoErr.
Variable os_mkdir_ok : string -> bool.
Variable os_create_ok : string -> bool.
Variable os_write_cap : string -> option nat.
Variable bp : DefaultBatchProcessor.

Local Abbreviation PI := (processItem os_open_ok os_read_err os_mkdir_ok os_create_ok os_write_cap bp).
Local Abbreviation TU := (take_up os_open_ok os_read_err os_mkdir_ok os_create_ok os_write_cap bp).
Local Abbreviation WS := (worker_step os_open_ok os_read_err os_mkdir_ok os_create_ok os_write_cap bp).
Local Abbreviation PB := (ProcessBatch os_open_ok os_read_err os_mkdir_ok os_create_ok os_write_cap bp).

(** [os.MkdirAll] removes no directory and makes only [path] and the
    parents it goes through. *)
Lemma MkdirAll_fuel_footprint fuel fs p :
  fs_dirs fs ⊆ (MkdirAll_fuel os_mkdir_ok fuel fs p).1 /\
  (forall d, d ∈ (MkdirAll_fuel os_mkdir_ok fuel fs p).1 ->
     d ∈ fs_dirs fs \/ d ∈ mkdir_chain_fuel fuel p).
Proof.
  revert p. induction fuel as [|fuel IH]; intros p; simpl.
  - case_bool_decide; [simpl; split; [done|]; intros; left; done|].
    case_bool_decide; [simpl; split; [done|]; intros; left; done|].
    destruct (mkdir_parent p); simpl;
      destruct (os_mkdir_ok p); [| case_bool_decide | | case_bool_decide]; simpl;
      (split; [set_solver|]); intros d Hd;
      rewrite ?elem_of_union, ?elem_of_singleton in Hd;
      (destruct Hd as [->|Hd]; [right; left|left; done]) || (left; done).
  - case_bool_decide; [simpl; split; [done|]; intros; left; done|].
    case_bool_decide; [simpl; split; [done|]; intros; left; done|].
    destruct (mkdir_parent p) as [q|].
    + destruct (IH q) as [IH1 IH2].
      destruct (MkdirAll_fuel os_mkdir_ok fuel fs q) as [dirs1 [e|]]; simpl in *.
      * split; [done|]. intros d Hd. destruct (IH2 d Hd); [left|right; right]; done.
      * destruct (os_mkdir_ok p); [| case_bool_decide]; simpl;
          (split; [set_solver|]); intros d Hd;
          rewrite ?elem_of_union, ?elem_of_singleton in Hd;
          [destruct Hd as [->|Hd]; [right; left|] | |];
          destruct (IH2 d Hd); [left|right; right| left|right; right| left|right; right]; done.
    + simpl. destruct (os_mkdir_ok p); [| case_bool_decide]; simpl;
        (split; [set_solver|]); intros d Hd;
        rewrite ?elem_of_union, ?elem_of_singleton in Hd;
        (destruct Hd as [->|Hd]; [right; left|left; done]) || (left; done).
Qed.

Lemma processItem_footprint ctx fs item :
  (forall p, p <> OutputPath item -> fs_files (PI ctx fs item).1 !! p = fs_files fs !! p) /\
  fs_dirs fs ⊆ fs_dirs (PI ctx fs item).1 /\
  (forall d, d ∈ fs_dirs (PI ctx fs item).1 ->
     d ∈ fs_dirs fs \/ d ∈ mkdir_chain (filepath_Dir (OutputPath item))).
Proof.
  destruct (MkdirAll_fuel_footprint (String.length (filepath_Dir (OutputPath item))) fs
              (filepath_Dir (OutputPath item))) as [Hsub Hin].
  unfold processItem. unfold MkdirAll, mkdir_chain in *.
  destruct (MkdirAll_fuel os_mkdir_ok _ fs (filepath_Dir (OutputPath item))) as [dirs1 mkErr].
  simpl in Hsub, Hin.
  repeat case_match; simplify_eq/=;
    (split; [intros p Hp; rewrite ?lookup_delete_ne, ?lookup_insert_ne by congruence; done|]);
    (split; [first [done | exact Hsub]|]); intros d Hd; first [left; done | apply Hin; done].
Qed.

Lemma take_up_footprint items fs ev :
  (forall p, p ∉ OutputPath <$> items -> fs_files (TU items fs ev).1 !! p = fs_files fs !! p) /\
  fs_dirs fs ⊆ fs_dirs (TU items fs ev).1 /\
  (forall d, d ∈ fs_dirs (TU items fs ev).1 ->
     d ∈ fs_dirs fs \/ exists it, it ∈ items /\ d ∈ mkdir_chain (filepath_Dir (OutputPath it))).
Proof.
  destruct ev as [idx ctx]. unfold take_up.
  destruct (checkContext ctx); [simpl; split; [done|split; [done|]]; intros; left; done|].
  destruct (items !! idx) as [it|] eqn:Hit; simpl.
  - destruct (processItem_footprint ctx fs it) as (H1 & H2 & H3).
    split; [|split; [done|]].
    + intros p Hp. apply H1. intros ->. apply Hp. apply list_elem_of_fmap.
      exists it. split; [done|]. eapply list_elem_of_lookup_2; done.
    + intros d Hd. destruct (H3 d Hd) as [?|?]; [left; done|right].
      exists it. split; [eapply list_elem_of_lookup_2; done|done].
  - split; [done|split; [done|]]. intros; left; done.
Qed.

Lemma fold_footprint items sched st :
  (forall p, p ∉ OutputPath <$> items ->
     fs_files (bs_fs (fold_left (WS items) sched st)) !! p = fs_files (bs_fs st) !! p) /\
  fs_dirs (bs_fs st) ⊆ fs_dirs (bs_fs (fold_left (WS items) sched st)) /\
  (forall d, d ∈ fs_dirs (bs_fs (fold_left (WS items) sched st)) ->
     d ∈ fs_dirs (bs_fs st) \/ exists it, it ∈ items /\ d ∈ mkdir_chain (filepath_Dir (OutputPath it))).
Proof.
  revert st. induction sched as [|ev sched IH]; intros st.
  - split; [done|split; [done|]]. intros; left; done.
  - simpl. destruct (IH (WS items st ev)) as (H1 & H2 & H3).
    rewrite (worker_step_fs os_open_ok os_read_err os_mkdir_ok os_create_ok os_write_cap bp)
      in H1, H2, H3.
    destruct (take_up_footprint items (bs_fs st) ev) as (T1 & T2 & T3).
    split; [|split].
    + intros p Hp. rewrite H1 by done. apply T1. done.
    + etransitivity; [exact T2|exact H2].
    + intros d Hd. destruct (H3 d Hd) as [Hd'|Hex]; [|right; done].
      apply T3. done.
Qed.

(** [ProcessBatch] touches no file but the items' output paths, removes
    no directory, and creates directories only on the way to the items'
    output directories: [filepath.Dir] of an output path, or a parent
    [os.MkdirAll] goes through to make it.  Inputs that are not also
    outputs, and every other file, are left as they were. *)
Theorem ProcessBatch_footprint (fs : FileSystem) (items : list BatchItem)
    (sched : list (nat * CtxState)) :
  (forall p, p ∉ OutputPath <$> items -> fs_files (PB fs items sched).1.1 !! p = fs_files fs !! p) /\
  fs_dirs fs ⊆ fs_dirs (PB fs items sched).1.1 /\
  (forall d, d ∈ fs_dirs (PB fs items sched).1.1 ->
     d ∈ fs_dirs fs \/ exists it, it ∈ items /\ d ∈ mkdir_chain (filepath_Dir (OutputPath it))).
Proof.
  destruct (decide (items = [])) as [->|Hne].
  { simpl. split; [done|split; [done|]]. intros; left; done. }
  rewrite (ProcessBatch_fold os_open_ok os_read_err os_mkdir_ok os_create_ok os_write_cap bp)
    by done.
  apply (fold_footprint items sched (batch_init fs items)).
Qed.

Lemma worker_step_progress items st ev :
  Total (bs_progress (WS items st ev)) = Total (bs_progress st) /\
  Completed (bs_progress (WS items st ev)) + Failed (bs_progress (WS items st ev)) =
    Completed (bs_progress st) + Failed (bs_progress st) + 1 /\
  bs_snapshots (WS items st ev) =
    if progressCallback bp
    then bs_snapshots st ++
           [{| Total := Total (bs_progress (WS items st ev));
               Completed := Completed (bs_progress (WS items st ev));
               Failed := Failed (bs_progress (WS items st ev));
               Current := InputPath (default zero_item (items !! ev.1)) |}]
    else bs_snapshots st.
Proof.
  unfold worker_step. destruct (TU items (bs_fs st) ev) as [fs' res].
  destruct (BError res); simpl; (split; [done|]); (split; [lia|done]).
Qed.

Lemma fold_snapshots items sched st :
  Total (bs_progress (fold_left (WS items) sched st)) = Total (bs_progress st) /\
  Completed (bs_progress (fold_left (WS items) sched st)) +
    Failed (bs_progress (fold_left (WS items) sched st)) =
    Completed (bs_progress st) + Failed (bs_progress st) + Z.of_nat (length sched) /\
  exists L, bs_snapshots (fold_left (WS items) sched st) = bs_snapshots st ++ L /\
    length L = (if progressCallback bp then length sched else 0%nat) /\
    (forall k p, L !! k = Some p -> exists ev, sched !! k = Some ev /\
       Total p = Total (bs_progress st) /\
       Completed p + Failed p = Completed (bs_progress st) + Failed (bs_progress st) + Z.of_nat (S k) /\
       Current p = InputPath (default zero_item (items !! ev.1))) /\
    (forall p, last L = Some p ->
       Total p = Total (bs_progress (fold_left (WS items) sched st)) /\
       Completed p = Completed (bs_progress (fold_left (WS items) sched st)) /\
       Failed p = Failed (bs_progress (fold_left (WS items) sched st))).
Proof.
  revert st. induction sched as [|ev sched IH]; intros st.
  - simpl. split; [done|]. split; [lia|]. exists []. rewrite app_nil_r.
    split; [done|]. split; [destruct (progressCallback bp); done|].
    split; [intros k p Hk; done|]. intros p Hp; done.
  - simpl. destruct (worker_step_progress items st ev) as (P1 & P2 & P3).
    destruct (IH (WS items st ev)) as (T & C & L1 & HL1 & Hlen & Hk & Hlast).
    split; [congruence|]. split; [lia|].
    destruct (progressCallback bp) eqn:Hcb.
    + eexists (_ :: L1). rewrite HL1, P3, <- app_assoc. split; [done|].
      split; [simpl; rewrite Hlen; done|]. split.
      * intros [|k] p Hp; simpl in Hp.
        -- injection Hp as <-. exists ev. simpl. split; [done|]. split; [done|].
           split; [lia|done].
        -- destruct (Hk k p Hp) as (ev' & Hev' & Ht & Hc & Hcur).
           exists ev'. split; [done|]. split; [congruence|]. split; [lia|done].
      * intros p Hp. destruct L1 as [|p1 L1'].
        -- simpl in Hp. injection Hp as <-. simpl in Hlen.
           destruct sched; [|discriminate]. simpl. done.
        -- apply Hlast. simpl in Hp |- *. done.
    + exists L1. rewrite HL1, P3. split; [done|]. split; [done|]. split.
      * destruct L1; [intros k p Hp; done|discriminate].
      * destruct L1; [intros p Hp; done|discriminate].
Qed.

Lemma ValidSchedule_length {A} (items : list A) sched :
  ValidSchedule items sched -> length sched = length items.
Proof.
  unfold ValidSchedule. intros Hp. apply Permutation_length in Hp.
  rewrite length_fmap, length_seq in Hp. done.
Qed.

(** The progress callback is invoked once per item, never otherwise: the
    [k]-th report carries [Total = len(items)], [k+1] items counted as
    completed or failed, and the input path of the item whose iteration
    made it, each item's path being reported exactly once in the order
    the workers took the items up. *)
Theorem ProcessBatch_progress_reports (fs : FileSystem) (items : list BatchItem)
    (sched : list (nat * CtxState)) :
  ValidSchedule items sched ->
  length (PB fs items sched).2 = (if progressCallback bp then length items else 0%nat) /\
  forall (k : nat) (p : Progress), (PB fs items sched).2 !! k = Some p ->
    Total p = Z.of_nat (length items) /\
    Completed p + Failed p = Z.of_nat (S k) /\
    exists ev it, sched !! k = Some ev /\ items !! ev.1 = Some it /\ Current p = InputPath it.
Proof.
  intros Hv. destruct (decide (items = [])) as [->|Hne].
  { simpl. split; [destruct (progressCallback bp); done|]. intros k p Hp. done. }
  rewrite (ProcessBatch_fold os_open_ok os_read_err os_mkdir_ok os_create_ok os_write_cap bp)
    by done. simpl.
  destruct (fold_snapshots items sched (batch_init fs items)) as (_ & _ & L & HL & Hlen & Hk & _).
  rewrite HL. simpl. rewrite (ValidSchedule_length items sched Hv) in Hlen.
  split; [done|]. intros k p Hp.
  destruct (Hk k p Hp) as (ev & Hev & Ht & Hc & Hcur). simpl in Ht, Hc.
  split; [done|]. split; [lia|].
  assert (Hin : ev ∈ sched) by (eapply list_elem_of_lookup_2; done).
  pose proof (ValidSchedule_bound items sched ev Hv Hin) as Hb.
  destruct (lookup_lt_is_Some_2 items ev.1 Hb) as [it Hit].
  exists ev, it. split; [done|]. split; [done|]. rewrite Hcur, Hit. done.
Qed.

Lemma count_insert l i x r :
  l !! i = Some x -> IsSuccess x = false ->
  count_success (<[i := r]> l) = (count_success l + (if IsSuccess r then 1 else 0))%nat /\
  (count_failed (<[i := r]> l) + 1 = count_failed l + (if IsSuccess r then 0 else 1))%nat.
Proof.
  unfold count_success, count_failed.
  revert i. induction l as [|y l IH]; intros [|i] Hi Hx; simpl in Hi; try done.
  - injection Hi as ->. simpl. rewrite Hx. destruct (IsSuccess r); simpl; lia.
  - simpl. destruct (IH i Hi Hx) as [H1 H2].
    destruct (IsSuccess y); simpl; rewrite ?H1; lia.
Qed.

Lemma worker_step_counters items st ev :
  bs_results (WS items st ev) = <[ev.1 := (TU items (bs_fs st) ev).2]> (bs_results st) /\
  Completed (bs_progress (WS items st ev)) =
    Completed (bs_progress st) + (if BError (TU items (bs_fs st) ev).2 then 0 else 1) /\
  Failed (bs_progress (WS items st ev)) =
    Failed (bs_progress st) + (if BError (TU items (bs_fs st) ev).2 then 1 else 0).
Proof.
  unfold worker_step. destruct (TU items (bs_fs st) ev) as [fs' res]. simpl.
  destruct (BError res); simpl; (split; [done|]); split; lia.
Qed.

(** The counters move with the results: every iteration adds one to
    [Completed] or [Failed] as its result is a success or not. *)
Lemma fold_counts items :
  (forall fs ev, IsSuccess (TU items fs ev).2 = true <-> BError (TU items fs ev).2 = None) ->
  forall sched st, NoDup (fst <$> sched) ->
  (forall ev, ev ∈ sched -> exists x, bs_results st !! ev.1 = Some x /\ IsSuccess x = false) ->
  Completed (bs_progress (fold_left (WS items) sched st)) -
    Z.of_nat (count_success (bs_results (fold_left (WS items) sched st))) =
    Completed (bs_progress st) - Z.of_nat (count_success (bs_results st)) /\
  Failed (bs_progress (fold_left (WS items) sched st)) -
    Z.of_nat (count_failed (bs_results (fold_left (WS items) sched st))) =
    Failed (bs_progress st) - Z.of_nat (count_failed (bs_results st)) + Z.of_nat (length sched).
Proof.
  intros Hp sched. induction sched as [|ev sched IH]; intros st Hnd Hpend.
  - simpl. lia.
  - simpl. simpl in Hnd. apply NoDup_cons in Hnd as [Hnot Hnd].
    destruct (worker_step_counters items st ev) as (R & C & F).
    destruct (Hpend ev ltac:(set_solver)) as (x & Hx & Hxs).
    destruct (count_insert (bs_results st) ev.1 x (TU items (bs_fs st) ev).2 Hx Hxs) as [K1 K2].
    destruct (IH (WS items st ev)) as [I1 I2]; [done| |].
    { intros ev' Hev'. rewrite R. rewrite list_lookup_insert_ne.
      - apply Hpend. set_solver.
      - intros Heq. apply Hnot. rewrite Heq. apply list_elem_of_fmap_2. done. }
    rewrite I1, I2, C, F, R, K1.
    pose proof (Hp (bs_fs st) ev) as Hpe.
    destruct (BError (TU items (bs_fs st) ev).2);
      destruct (IsSuccess (TU items (bs_fs st) ev).2);
      try (destruct Hpe as [Hpe1 Hpe2]; first [discriminate (Hpe1 eq_refl) | discriminate (Hpe2 eq_refl)]);
      lia.
Qed.
End EngineExtras.

Section X2.
Variable Image : Type.
Variable image_Decode : list byte -> option Image.
Variable jpeg_Encode : Image -> Z -> list byte * option GoErr.

Lemma jpeg_body_decoded ctx r w opts :
  co_err (run_codec (jpeg_encode_body Image image_Decode jpeg_Encode ctx r w opts)) = None ->
  is_Some (image_Decode (rd_data r)).
Proof.
  unfold run_codec, jpeg_encode_body, cm_bind, cm_check, io_ReadAll, wrap, cm_throw, cm_ret.
  destruct (checkContext ctx); cbn -[io_Write]; [done|].
  destruct (rd_err r); cbn -[io_Write]; [done|].
  destruct (image_Decode (rd_data r)); [eexists; done|done].
Qed.

Lemma stream_body_decoded enc msg fm ctx r w opts :
  co_err (run_codec (stream_body Image image_Decode enc msg fm ctx r w opts)) = None ->
  is_Some (image_Decode (rd_data r)).
Proof.
  unfold run_codec, stream_body, cm_bind, cm_check, wrap, cm_throw, cm_ret.
  destruct (Validate opts); cbn -[io_Write readAllWithLimit]; [done|].
  destruct (checkContext ctx); cbn -[io_Write readAllWithLimit]; [done|].
  destruct (readAllWithLimit r (MaxFileSize opts) (0%nat, [])) as [[[data [e|]]|e] [n w0]] eqn:Hr;
    cbn -[io_Write]; try done.
  apply readAllWithLimit_ok in Hr as (-> & Herr & Hs).
  destruct (image_Decode (rd_data r)); [eexists; done|done].
Qed.
End X2.

Lemma IsSuccess_paired br :
  (is_Some (BResult br) <-> BError br = None) -> (IsSuccess br = true <-> BError br = None).
Proof.
  unfold IsSuccess. destruct (BError br), (BResult br); intros [H1 H2]; split; try done.
  intros _. destruct (H2 eq_refl); done.
Qed.

Lemma count_replicate n :
  count_success (replicate n zero_result) = 0%nat /\ count_failed (replicate n zero_result) = n.
Proof.
  unfold count_success, count_failed. induction n as [|n [IH1 IH2]]; [done|].
  simpl. rewrite IH1, IH2. done.
Qed.

(** With the progress callback installed, the last report agrees with the
    returned results: [Total] is their number, [Completed] the number of
    them for which [IsSuccess] holds and [Failed] the number of the
    others, as the CLI counts them. *)
Theorem ProcessBatch_final_report {Image : Type}
    (image_Decode : list byte -> option Image)
    (jpeg_Encode : Image -> Z -> list byte * option GoErr)
    (png_Encode : Image -> PNGCompressionLevel -> list byte * option GoErr)
    (numCPU : Z) (withMaxWorkers : option Z)
    (os_open_ok : string -> bool) (os_read_err : string -> option GoErr)
    (os_mkdir_ok os_create_ok : string -> bool) (os_write_cap : string -> option nat)
    (fs : FileSystem) (items : list BatchItem) (sched : list (nat * CtxState)) :
  ValidSchedule items sched -> items <> [] ->
  exists p,
    last (ProcessBatch os_open_ok os_read_err os_mkdir_ok os_create_ok os_write_cap
            (NewDefaultBatchProcessor image_Decode jpeg_Encode png_Encode numCPU withMaxWorkers true)
            fs items sched).2 = Some p /\
    Total p = Z.of_nat (length (ProcessBatch os_open_ok os_read_err os_mkdir_ok os_create_ok
            os_write_cap (NewDefaultBatchProcessor image_Decode jpeg_Encode png_Encode numCPU
            withMaxWorkers true) fs items sched).1.2) /\
    Completed p = Z.of_nat (count_success (ProcessBatch os_open_ok os_read_err os_mkdir_ok
            os_create_ok os_write_cap (NewDefaultBatchProcessor image_Decode jpeg_Encode png_Encode
            numCPU withMaxWorkers true) fs items sched).1.2) /\
    Failed p = Z.of_nat (count_failed (ProcessBatch os_open_ok os_read_err os_mkdir_ok
            os_create_ok os_write_cap (NewDefaultBatchProcessor image_Decode jpeg_Encode png_Encode
            numCPU withMaxWorkers true) fs items sched).1.2).
Proof.
  intros Hv Hne.
  set (bp := NewDefaultBatchProcessor image_Decode jpeg_Encode png_Encode numCPU withMaxWorkers true).
  rewrite (ProcessBatch_fold os_open_ok os_read_err os_mkdir_ok os_create_ok os_write_cap bp)
    by done. simpl.
  destruct (fold_snapshots os_open_ok os_read_err os_mkdir_ok os_create_ok os_write_cap bp
              items sched (batch_init fs items)) as (T & _ & L & HL & Hlen & _ & Hlast).
  assert (Hp : forall fs' ev,
    IsSuccess (take_up os_open_ok os_read_err os_mkdir_ok os_create_ok os_write_cap bp items fs' ev).2
      = true <->
    BError (take_up os_open_ok os_read_err os_mkdir_ok os_create_ok os_write_cap bp items fs' ev).2
      = None).
  { intros fs' ev. apply IsSuccess_paired.
    apply take_up_paired; intros; apply run_codec_paired. }
  destruct (fold_counts os_open_ok os_read_err os_mkdir_ok os_create_ok os_write_cap bp
              items Hp sched (batch_init fs items)) as [C F].
  { apply ValidSchedule_NoDup with (items := items). done. }
  { intros ev Hev. pose proof (ValidSchedule_bound items sched ev Hv Hev) as Hb.
    exists zero_result. simpl. split; [|done]. apply lookup_replicate_2. done. }
  simpl in C, F. destruct (count_replicate (length items)) as [R1 R2].
  rewrite R1 in C. rewrite R2 in F.
  rewrite (ValidSchedule_length items sched Hv) in F.
  rewrite HL. simpl.
  assert (HLne : L <> []).
  { intros ->. simpl in Hlen. rewrite (ValidSchedule_length items sched Hv) in Hlen.
    destruct items; done. }
  destruct (last L) as [p|] eqn:Hl; [|apply last_None in Hl; done].
  destruct (Hlast p eq_refl) as (Tp & Cp & Fp).
  exists p. split; [done|].
  rewrite (fold_length os_open_ok os_read_err os_mkdir_ok os_create_ok os_write_cap bp).
  simpl. rewrite length_replicate.
  split; [rewrite Tp, T; done|]. split; lia.
Qed.

(** When [processItem] reports no error, it has a result whose compressed
    size is the length of the file now at the output path and whose format
    is the one detected from the input path; the input file existed and
    was read without error, and when input and output paths differ the
    original size is the input file's length. *)
Theorem processItem_success_output {Image : Type}
    (image_Decode : list byte -> option Image)
    (jpeg_Encode : Image -> Z -> list byte * option GoErr)
    (png_Encode : Image -> PNGCompressionLevel -> list byte * option GoErr)
    (numCPU : Z) (withMaxWorkers : option Z) (withCallback : bool)
    (os_open_ok : string -> bool) (os_read_err : string -> option GoErr)
    (os_mkdir_ok os_create_ok : string -> bool) (os_write_cap : string -> option nat)
    (ctx : CtxState) (fs : FileSystem) (item : BatchItem) :
  BError (processItem os_open_ok os_read_err os_mkdir_ok os_create_ok os_write_cap
            (NewDefaultBatchProcessor image_Decode jpeg_Encode png_Encode numCPU withMaxWorkers
               withCallback) ctx fs item).2 = None ->
  exists res inp out,
    BResult (processItem os_open_ok os_read_err os_mkdir_ok os_create_ok os_write_cap
            (NewDefaultBatchProcessor image_Decode jpeg_Encode png_Encode numCPU withMaxWorkers
               withCallback) ctx fs item).2 = Some res /\
    fs_files fs !! InputPath item = Some inp /\
    fs_files (processItem os_open_ok os_read_err os_mkdir_ok os_create_ok os_write_cap
            (NewDefaultBatchProcessor image_Decode jpeg_Encode png_Encode numCPU withMaxWorkers
               withCallback) ctx fs item).1 !! OutputPath item = Some out /\
    CompressedSize res = Z.of_nat (length out) /\
    ResultFormat res = (detectFormatFromPath (InputPath item)).1 /\
    os_read_err (InputPath item) = None /\
    (InputPath item <> OutputPath item -> OriginalSize res = Z.of_nat (length inp)).
Proof.
  unfold processItem.
  destruct (detectFormatFromPath (InputPath item)) as [f [e|]] eqn:Hdet; simpl; [done|].
  destruct (os_open_ok (InputPath item)); simpl; [|done].
  destruct (fs_files fs !! InputPath item) as [inp|] eqn:Hin; simpl; [|done].
  destruct (MkdirAll os_mkdir_ok fs (filepath_Dir (OutputPath item))) as [dirs1 [mkE|]];
    simpl; [done|].
  destruct (os_create_ok (OutputPath item)); simpl; [|done].
  set (r := {| rd_data := default [] (<[OutputPath item := []]> (fs_files fs) !! InputPath item);
               rd_err := os_read_err (InputPath item) |}).
  set (w := {| wr_cap := os_write_cap (OutputPath item) |}).
  assert (Hr : InputPath item <> OutputPath item -> rd_data r = inp).
  { intros Hne. subst r. simpl. rewrite lookup_insert_ne by congruence. rewrite Hin. done. }
  apply detectFormatFromPath_ok in Hdet as Hf.
  destruct Hf as [-> | ->]; simpl.
  - destruct (co_err (JPEG_Compress Image image_Decode jpeg_Encode ctx r w (Options item))) eqn:He;
      simpl; [done|]. intros _.
    destruct (jpeg_body_ok Image image_Decode jpeg_Encode ctx r w (Options item) He)
      as (Hres & _ & Herr).
    eexists _, inp, _. split; [exact Hres|]. split; [done|].
    split; [rewrite lookup_insert_eq; done|]. split; [done|].
    split; [done|]. split; [exact Herr|].
    intros Hne. rewrite <- (Hr Hne). done.
  - destruct (co_err (PNG_Compress Image image_Decode png_Encode ctx r w (Options item))) eqn:He;
      simpl; [done|]. intros _.
    destruct (stream_body_ok Image image_Decode _ _ _ ctx r w (Options item) He)
      as (Hres & _ & Herr).
    eexists _, inp, _. split; [exact Hres|]. split; [done|].
    split; [rewrite lookup_insert_eq; done|]. split; [done|].
    split; [done|]. split; [exact Herr|].
    intros Hne. rewrite <- (Hr Hne). done.
Qed.


Lemma walk_inl_readable inputDir outputDir cfg (e : Entry) :
  forall path items items',
  walk inputDir outputDir cfg path e items = inl items' -> readable e.
Proof.
  induction e as [n | n cs IH | n | n t] using Entry_ind'; intros path items items' Hw;
    [done| |done|done].
  revert items Hw. induction cs as [|c cs IHcs]; intros items Hw; [done|].
  inversion IH as [|? ? IHc IHrest]; subst. simpl in Hw |- *.
  destruct (walk inputDir outputDir cfg (filepath_Join path (entry_name c)) c items)
    as [items1|err] eqn:Hc; [|done].
  split; [eapply IHc; exact Hc|].
  apply (IHcs IHrest items1). exact Hw.
Qed.


Local Open Scope string_scope.

Lemma ProcessBatch_progress_reports_witness :
  ValidSchedule ex_items ex_sched /\
  length (ProcessBatch ex_all_ok ex_no_read_err ex_all_ok ex_all_ok ex_no_cap ex_bp
            ex_fs ex_items ex_sched).2 = (if progressCallback ex_bp then length ex_items else 0%nat) /\
  forall (k : nat) (p : Progress),
    (ProcessBatch ex_all_ok ex_no_read_err ex_all_ok ex_all_ok ex_no_cap ex_bp
       ex_fs ex_items ex_sched).2 !! k = Some p ->
    Total p = Z.of_nat (length ex_items) /\
    Completed p + Failed p = Z.of_nat (S k) /\
    exists ev it, ex_sched !! k = Some ev /\ ex_items !! ev.1 = Some it /\ Current p = InputPath it.
Proof.
  split.
  - unfold ValidSchedule. simpl. apply perm_swap.
  - apply (ProcessBatch_progress_reports ex_all_ok ex_no_read_err ex_all_ok ex_all_ok ex_no_cap
             ex_bp ex_fs ex_items ex_sched).
    unfold ValidSchedule. simpl. apply perm_swap.
Defined.

Lemma ProcessBatch_final_report_witness :
  ValidSchedule ex_items ex_sched /\ ex_items <> [] /\
  exists p,
    last (ProcessBatch ex_all_ok ex_no_read_err ex_all_ok ex_all_ok ex_no_cap ex_bp
            ex_fs ex_items ex_sched).2 = Some p /\
    Total p = Z.of_nat (length (ProcessBatch ex_all_ok ex_no_read_err ex_all_ok ex_all_ok
                                  ex_no_cap ex_bp ex_fs ex_items ex_sched).1.2) /\
    Completed p = Z.of_nat (count_success (ProcessBatch ex_all_ok ex_no_read_err ex_all_ok
                              ex_all_ok ex_no_cap ex_bp ex_fs ex_items ex_sched).1.2) /\
    Failed p = Z.of_nat (count_failed (ProcessBatch ex_all_ok ex_no_read_err ex_all_ok
                           ex_all_ok ex_no_cap ex_bp ex_fs ex_items ex_sched).1.2).
Proof.
  split; [unfold ValidSchedule; simpl; apply perm_swap|].
  split; [discriminate|].
  apply (ProcessBatch_final_report ex_decode ex_jpeg_encode ex_png_encode 4 None
           ex_all_ok ex_no_read_err ex_all_ok ex_all_ok ex_no_cap ex_fs ex_items ex_sched).
  - unfold ValidSchedule. simpl. apply perm_swap.
  - discriminate.
Defined.

Lemma processItem_success_output_witness :
  BError (processItem ex_all_ok ex_no_read_err ex_all_ok ex_all_ok ex_no_cap ex_bp CtxActive
            ex_fs {| InputPath := "in/a.jpg"; OutputPath := "out/a.jpg";
                     Options := DefaultCompressOptions |}).2 = None /\
  exists res inp out,
    BResult (processItem ex_all_ok ex_no_read_err ex_all_ok ex_all_ok ex_no_cap ex_bp CtxActive
            ex_fs {| InputPath := "in/a.jpg"; OutputPath := "out/a.jpg";
                     Options := DefaultCompressOptions |}).2 = Some res /\
    fs_files ex_fs !! "in/a.jpg" = Some inp /\
    fs_files (processItem ex_all_ok ex_no_read_err ex_all_ok ex_all_ok ex_no_cap ex_bp CtxActive
            ex_fs {| InputPath := "in/a.jpg"; OutputPath := "out/a.jpg";
                     Options := DefaultCompressOptions |}).1 !! "out/a.jpg" = Some out /\
    CompressedSize res = Z.of_nat (length out) /\
    ResultFormat res = (detectFormatFromPath "in/a.jpg").1 /\
    ex_no_read_err "in/a.jpg" = None /\
    ("in/a.jpg" <> "out/a.jpg" -> OriginalSize res = Z.of_nat (length inp)).
Proof.
  split; [reflexivity|].
  apply (processItem_success_output ex_decode ex_jpeg_encode ex_png_encode 4 None true
           ex_all_ok ex_no_read_err ex_all_ok ex_all_ok ex_no_cap CtxActive ex_fs
           {| InputPath := "in/a.jpg"; OutputPath := "out/a.jpg";
              Options := DefaultCompressOptions |}).
  reflexivity.
Defined.


Local Close Scope string_scope.
